(** * gar: archive manager -- verification of the archive pipeline

    Shallow embedding of the Go packages [internal/archive],
    [internal/crypto] and [internal/models] of cubetiqlabs/gar, and the
    properties of the path guard, the encryption stream, the extraction
    scheduler and the two container codecs.

    The Go standard library ([path/filepath], [strings], [crypto/cipher],
    [archive/zip], [archive/tar], [compress/gzip]) is not part of the
    repository.  The lexical path functions are written out below following
    their documented algorithms; ciphers and container parsers are taken as
    parameters of the functions that call them. *)

From Stdlib Require Import List String Ascii ZArith Lia Bool Arith PeanoNat.
From Stdlib Require Import Permutation DecimalString.
Import ListNotations.
Set Warnings "-register-all".
Open Scope string_scope.
Open Scope list_scope.

(* ===================================================================== *)
(** * Strings as character lists *)
(* ===================================================================== *)

Module Str.

Definition chars := list ascii.

Definition of_string (s : string) : chars := list_ascii_of_string s.
Definition to_string (l : chars) : string := string_of_list_ascii l.

(** [strings.HasPrefix(s, prefix)] *)
Fixpoint HasPrefix (s prefix : chars) : bool :=
  match prefix, s with
  | [], _ => true
  | _ :: _, [] => false
  | p :: prefix', c :: s' => Ascii.eqb c p && HasPrefix s' prefix'
  end.

Fixpoint eqb (a b : chars) : bool :=
  match a, b with
  | [], [] => true
  | x :: a', y :: b' => Ascii.eqb x y && eqb a' b'
  | _, _ => false
  end.

Definition isEmpty (a : chars) : bool :=
  match a with [] => true | _ => false end.

(** ASCII [strings.ToLower] *)
Definition lowerChar (c : ascii) : ascii :=
  let n := nat_of_ascii c in
  if Nat.leb 65 n && Nat.leb n 90 then ascii_of_nat (n + 32) else c.

Definition ToLower (s : chars) : chars := map lowerChar s.

(** [strings.Join(elems, sep)] *)
Fixpoint Join (elems : list chars) (sep : chars) : chars :=
  match elems with
  | [] => []
  | [e] => e
  | e :: rest => e ++ sep ++ Join rest sep
  end.

(** Cut a string at every character satisfying [isSep]; the pieces may be
    empty. *)
Fixpoint split (isSep : ascii -> bool) (s : chars) : list chars :=
  match s with
  | [] => [[]]
  | c :: r =>
      if isSep c then [] :: split isSep r
      else match split isSep r with
           | h :: t => (c :: h) :: t
           | [] => [[c]]
           end
  end.

(** The non-empty pieces: the path elements of [s]. *)
Definition elements (isSep : ascii -> bool) (s : chars) : list chars :=
  filter (fun e => negb (isEmpty e)) (split isSep s).

End Str.

(* ===================================================================== *)
(** * path/filepath, lexical part

    [sep] is [filepath.Separator] of the host.  A character is a path
    separator when it is [sep] or a forward slash, which is
    [os.IsPathSeparator] on both Unix ([sep] = "/") and Windows
    ([sep] = "\").  Volume names (drive letters, UNC) are not modelled. *)
(* ===================================================================== *)

Module FilePath.
Import Str.

Definition slash : ascii := "/"%char.
Definition backslash : ascii := "\"%char.
Definition dot : ascii := "."%char.
Definition dotdot : chars := [dot; dot].

Definition IsPathSeparator (sep c : ascii) : bool :=
  Ascii.eqb c sep || Ascii.eqb c slash.

(** One step of the element loop of [Clean]: [stack] holds the elements
    kept so far, innermost first. *)
Definition cleanStep (rooted : bool) (stack : list chars) (e : chars)
  : list chars :=
  if Str.eqb e [dot] then stack
  else if Str.eqb e dotdot then
    match stack with
    | top :: below =>
        if Str.eqb top dotdot then dotdot :: stack else below
    | [] => if rooted then [] else [dotdot]
    end
  else e :: stack.

Definition isRooted (sep : ascii) (path : chars) : bool :=
  match path with
  | c :: _ => IsPathSeparator sep c
  | [] => false
  end.

(** The elements of [Clean path], outermost first. *)
Definition cleanElems (sep : ascii) (path : chars) : list chars :=
  rev (fold_left (cleanStep (isRooted sep path))
                 (elements (IsPathSeparator sep) path) []).

(** [filepath.Clean] *)
Definition Clean (sep : ascii) (path : chars) : chars :=
  let body := Str.Join (cleanElems sep path) [sep] in
  if isRooted sep path then sep :: body
  else match body with
       | [] => [dot]
       | _ => body
       end.

(** [filepath.Join] *)
Fixpoint Join (sep : ascii) (elem : list chars) : chars :=
  match elem with
  | [] => []
  | e :: rest =>
      if isEmpty e then Join sep rest
      else Clean sep (Str.Join elem [sep])
  end.

(** [filepath.IsAbs] *)
Definition IsAbs (sep : ascii) (path : chars) : bool := isRooted sep path.

(** [filepath.Abs]; [wd] is the result of [os.Getwd], [None] when it
    fails. *)
Definition Abs (sep : ascii) (wd : option chars) (path : chars)
  : option chars :=
  if IsAbs sep path then Some (Clean sep path)
  else match wd with
       | Some d => Some (Join sep [d; path])
       | None => None
       end.

(** [path[:i+1]] for the last separator index [i]: everything up to and
    including the last separator. *)
Fixpoint uptoLastSep (sep : ascii) (path : chars) : chars :=
  match path with
  | [] => []
  | c :: r =>
      if existsb (IsPathSeparator sep) path then c :: uptoLastSep sep r
      else []
  end.

(** [filepath.Dir] *)
Definition Dir (sep : ascii) (path : chars) : chars :=
  Clean sep (uptoLastSep sep path).

Fixpoint dropWhile (f : ascii -> bool) (s : chars) : chars :=
  match s with
  | [] => []
  | c :: r => if f c then dropWhile f r else s
  end.

Fixpoint takeWhile (f : ascii -> bool) (s : chars) : chars :=
  match s with
  | [] => []
  | c :: r => if f c then c :: takeWhile f r else []
  end.

(** [filepath.Base] *)
Definition Base (sep : ascii) (path : chars) : chars :=
  match path with
  | [] => [dot]
  | _ =>
      let stripped := dropWhile (IsPathSeparator sep) (rev path) in
      let last := rev (takeWhile (fun c => negb (IsPathSeparator sep c))
                                 stripped) in
      match last with
      | [] => [sep]
      | _ => last
      end
  end.

(** The scan of [filepath.Ext] from the end of the path, on the reversed
    string; [acc] is the suffix already passed. *)
Fixpoint extScan (sep : ascii) (revpath acc : chars) : chars :=
  match revpath with
  | [] => []
  | c :: r =>
      if IsPathSeparator sep c then []
      else if Ascii.eqb c dot then c :: acc
      else extScan sep r (c :: acc)
  end.

(** [filepath.Ext] *)
Definition Ext (sep : ascii) (path : chars) : chars :=
  extScan sep (rev path) [].

(** [filepath.ToSlash] *)
Definition ToSlash (sep : ascii) (path : chars) : chars :=
  if Ascii.eqb sep slash then path
  else map (fun c => if Ascii.eqb c sep then slash else c) path.

Fixpoint stripCommon (b t : list chars) : list chars * list chars :=
  match b, t with
  | x :: b', y :: t' =>
      if Str.eqb x y then stripCommon b' t' else (b, t)
  | _, _ => (b, t)
  end.

(** [filepath.Rel], on the elements of the two cleaned paths: the common
    leading elements are dropped, every remaining element of the base
    becomes "..", the remaining elements of the target follow. *)
Definition Rel (sep : ascii) (basepath targpath : chars) : option chars :=
  let base := Clean sep basepath in
  let targ := Clean sep targpath in
  if Str.eqb targ base then Some [dot]
  else if negb (Bool.eqb (isRooted sep base) (isRooted sep targ)) then None
  else
    let notDot := fun e => negb (Str.eqb e [dot]) in
    let b := filter notDot (elements (IsPathSeparator sep) base) in
    let t := filter notDot (elements (IsPathSeparator sep) targ) in
    let '(b', t') := stripCommon b t in
    match b' with
    | first :: _ =>
        if Str.eqb first dotdot then None
        else Some (Str.Join (map (fun _ => dotdot) b' ++ t') [sep])
    | [] => Some (Str.Join t' [sep])
    end.

(** [dest] is [root] or lies below it: the path elements of [root] are
    the leading path elements of [dest]. *)
Definition within (sep : ascii) (root dest : chars) : Prop :=
  exists rest,
    elements (IsPathSeparator sep) dest
    = elements (IsPathSeparator sep) root ++ rest.

Fixpoint isPrefixOf (a b : list chars) : bool :=
  match a, b with
  | [], _ => true
  | x :: a', y :: b' => Str.eqb x y && isPrefixOf a' b'
  | _ :: _, [] => false
  end.

(** A path element: not empty, and without a separator. *)
Definition isElement (sep : ascii) (e : chars) : Prop :=
  e <> [] /\ forall c, In c e -> IsPathSeparator sep c = false.

(** [within], decided. *)
Definition withinb (sep : ascii) (root dest : chars) : bool :=
  isPrefixOf (elements (IsPathSeparator sep) root)
             (elements (IsPathSeparator sep) dest).

End FilePath.


(* ===================================================================== *)
(** * internal/models *)
(* ===================================================================== *)

Module Models.
Import Str.

Inductive ArchiveFormat := FormatZip | FormatTarGz.

Inductive CompressionLevel := LevelFastest | LevelNormal | LevelBest.

Record ArchiveOptions := {
  Format : ArchiveFormat;
  Level : CompressionLevel;
  Password : chars;
  Workers : Z;
  Verbose : bool
}.

(** The same options with another password. *)
Definition setPassword (opts : ArchiveOptions) (password : chars)
  : ArchiveOptions :=
  {| Format := Format opts; Level := Level opts; Password := password;
     Workers := Workers opts; Verbose := Verbose opts |}.

End Models.

(* ===================================================================== *)
(** * The outside world: bytes, errors, file-system calls

    A run is observed through the sequence of calls it makes to the
    operating system.  The answer of the file system to a call is given by
    [fsys], which sees the calls made so far. *)
(* ===================================================================== *)

Module World.
Import Str.

Definition byte := Byte.byte.
Definition bytes := list byte.

(** A Go [error], by its message. *)
Definition error := chars.

Inductive Result (A : Type) :=
| Ok (a : A)
| Err (e : error).
Arguments Ok {A} a.
Arguments Err {A} e.

Inductive FsOp :=
| MkdirAll (path : chars) (perm : Z)
| OpenFile (path : chars) (perm : Z)   (* O_WRONLY|O_CREATE|O_TRUNC *)
| WriteTo (path : chars) (data : bytes) (* io.Copy into the opened file *)
| Chmod (path : chars) (perm : Z).

Inductive Event :=
| Fs (op : FsOp)
| Stdout (line : chars)
| Stderr (line : chars).

Definition Trace := list Event.

(** [None]: the call succeeds; [Some e]: it returns the error [e]. *)
Definition FileSystem := Trace -> FsOp -> option error.

(** The path a file-system call is aimed at. *)
Definition target (op : FsOp) : chars :=
  match op with
  | MkdirAll p _ | OpenFile p _ | WriteTo p _ | Chmod p _ => p
  end.

(** Computations that log events and may stop with an error. *)
Definition M (A : Type) := Trace -> Trace * Result A.

Definition ret {A} (a : A) : M A := fun tr => (tr, Ok a).
Definition fail {A} (e : error) : M A := fun tr => (tr, Err e).
Definition bind {A B} (m : M A) (k : A -> M B) : M B :=
  fun tr =>
    match m tr with
    | (tr', Ok a) => k a tr'
    | (tr', Err e) => (tr', Err e)
    end.
Definition emit (ev : Event) : M unit := fun tr => (tr ++ [ev], Ok tt).
Definition call (fsys : FileSystem) (op : FsOp) : M unit :=
  fun tr =>
    match fsys tr op with
    | None => (tr ++ [Fs op], Ok tt)
    | Some e => (tr ++ [Fs op], Err e)
    end.
Definition when (b : bool) (m : M unit) : M unit :=
  if b then m else ret tt.
Definition orFail (r : option error) : M unit :=
  match r with
  | None => ret tt
  | Some e => fail e
  end.

(** The file-system calls of a trace, in order. *)
Fixpoint fsOps (tr : Trace) : list FsOp :=
  match tr with
  | [] => []
  | Fs op :: r => op :: fsOps r
  | _ :: r => fsOps r
  end.

End World.

Declare Scope gar_scope.
Notation "x <- m ;; k" := (World.bind m (fun x => k))
  (at level 61, m at next level, right associativity) : gar_scope.
Notation "m ;;; k" := (World.bind m (fun _ => k))
  (at level 61, right associativity) : gar_scope.
Open Scope gar_scope.

(* ===================================================================== *)
(** * internal/archive: extraction of the two containers *)
(* ===================================================================== *)

Module Archive.
Import Str FilePath Models World.

Definition u (s : string) : chars := of_string s.

(** What [archive/zip] exposes of one entry of the central directory. *)
Record ZipFile := {
  zName : chars;
  zIsDir : bool;               (* f.FileInfo().IsDir() *)
  zMode : Z;                   (* f.Mode() *)
  zUncompressedSize64 : Z;
  zOpenErr : option error;     (* f.Open() *)
  zData : bytes;               (* what the entry's reader yields ... *)
  zReadErr : option error      (* ... before this error, if any *)
}.

Definition TypeReg : ascii := "0"%char.
Definition TypeDir : ascii := "5"%char.

(** What [archive/tar] exposes of one entry. *)
Record TarEntry := {
  tName : chars;
  tTypeflag : ascii;
  tSize : Z;
  tMode : Z;
  tData : bytes;
  tReadErr : option error
}.

(** The entries [tarReader.Next] yields, and how the stream ends:
    [None] for [io.EOF], [Some e] when [Next] returns the error [e]. *)
Record TarStream := {
  tsEntries : list TarEntry;
  tsEnd : option error
}.

Section Extraction.
Variable sep : ascii.            (* filepath.Separator *)
Variable wd : option chars.      (* os.Getwd *)
Variable fsys : FileSystem.

(** The guard of [extractZipFile]. *)
Definition zipGuard (absDestPath absOutputPath : chars) : bool :=
  HasPrefix absDestPath (absOutputPath ++ [sep])
  || Str.eqb absDestPath absOutputPath.

Definition extractZipFile (f : ZipFile) (outputPath : chars)
           (opts : ArchiveOptions) : M unit :=
  let destPath := Join sep [outputPath; zName f] in
  match Abs sep wd destPath with
  | None => fail (u "invalid destination path: " ++ zName f)
  | Some absDestPath =>
  match Abs sep wd outputPath with
  | None => fail (u "invalid output path: " ++ outputPath)
  | Some absOutputPath =>
      if negb (zipGuard absDestPath absOutputPath)
      then fail (u "illegal file path: " ++ zName f)
      else if zIsDir f then call fsys (MkdirAll destPath (zMode f))
      else
        when (Verbose opts) (emit (Stdout (u "  Extracting: " ++ zName f))) ;;;
        call fsys (MkdirAll (Dir sep destPath) 493) ;;;
        orFail (zOpenErr f) ;;;
        call fsys (OpenFile destPath (zMode f)) ;;;
        call fsys (WriteTo destPath (zData f)) ;;;
        orFail (zReadErr f)
  end
  end.

(** The guard of [extractTarGz]. *)
Definition tarGuard (destPath outputPath : chars) : bool :=
  HasPrefix (Clean sep destPath) (Clean sep outputPath).

(** One iteration of the loop of [extractTarGz], after [Next]. *)
Definition extractTarEntry (e : TarEntry) (outputPath : chars)
           (opts : ArchiveOptions) : M unit :=
  let destPath := Join sep [outputPath; tName e] in
  if negb (tarGuard destPath outputPath)
  then fail (u "illegal file path: " ++ tName e)
  else
    when (Verbose opts) (emit (Stdout (u "  Extracting: " ++ tName e))) ;;;
    if Ascii.eqb (tTypeflag e) TypeDir then
      call fsys (MkdirAll destPath 493)
    else if Ascii.eqb (tTypeflag e) TypeReg then
      call fsys (MkdirAll (Dir sep destPath) 493) ;;;
      call fsys (OpenFile destPath 438) ;;;
      call fsys (WriteTo destPath (tData e)) ;;;
      orFail (tReadErr e) ;;;
      call fsys (Chmod destPath (tMode e))
    else ret tt.

Fixpoint tarLoop (entries : list TarEntry) (ending : option error)
         (outputPath : chars) (opts : ArchiveOptions) : M unit :=
  match entries with
  | [] => orFail ending
  | e :: rest =>
      extractTarEntry e outputPath opts ;;;
      tarLoop rest ending outputPath opts
  end.

(** [extractTarGz]; [opened] is what [gzip.NewReader] and
    [tar.NewReader] make of the reader. *)
Definition extractTarGz (opened : Result TarStream) (outputPath : chars)
           (opts : ArchiveOptions) : M unit :=
  match opened with
  | Err e => fail e
  | Ok ts => tarLoop (tsEntries ts) (tsEnd ts) outputPath opts
  end.

End Extraction.

End Archive.

(* ===================================================================== *)
(** * internal/crypto: the encryption stream

    [crypto/aes], [crypto/cipher] and [pbkdf2] are parameters: a [Cipher]
    gives the key derivation and the seal and open operations of the
    authenticated cipher.  For the 32-byte keys derived here neither
    [aes.NewCipher] nor [cipher.NewGCM] returns an error. *)
(* ===================================================================== *)

Module Crypto.
Import Str World.

Definition u (s : string) : chars := of_string s.

Record Cipher := {
  pbkdf2Key : chars -> bytes -> bytes;        (* password, salt *)
  gcmSeal : bytes -> bytes -> bytes -> bytes; (* key, nonce, plaintext *)
  gcmOpen : bytes -> bytes -> bytes -> option bytes
}.

Definition SaltSize : nat := 32.
Definition NonceSize : nat := 12.   (* gcm.NonceSize() *)
Definition Overhead : nat := 16.    (* gcm.Overhead() *)

(** [gcm.Open]: a ciphertext shorter than the tag is rejected before the
    cipher is consulted. *)
Definition Open (c : Cipher) (key nonce ct : bytes) : option bytes :=
  if Nat.ltb (List.length ct) Overhead then None else gcmOpen c key nonce ct.

(** ** Byte sinks and sources *)

(** An [io.Writer] that appends to [sinkData], or fails every write with
    [sinkErr]. *)
Record Sink := {
  sinkData : bytes;
  sinkErr : option error
}.

Definition Sink_Write (w : Sink) (p : bytes) : Sink * (nat * option error) :=
  match sinkErr w with
  | Some e => (w, (0, Some e))
  | None => ({| sinkData := sinkData w ++ p; sinkErr := None |},
             (List.length p, None))
  end.

Inductive ioerr :=
| EOF
| IOErr (e : error).

(** An [io.Reader] over the bytes [srcData]; when they are used up it
    returns [io.EOF], or the error [srcEnd]. *)
Record Source := {
  srcData : bytes;
  srcEnd : option error
}.

Definition endOf (s : Source) : ioerr :=
  match srcEnd s with
  | None => EOF
  | Some e => IOErr e
  end.

(** [r.Read(p)] with [len(p) = n]: the bytes read, the error, the reader
    afterwards. *)
Definition Source_Read (s : Source) (n : nat)
  : bytes * option ioerr * Source :=
  match n, srcData s with
  | 0, _ => ([], None, s)
  | _, [] => ([], Some (endOf s), s)
  | _, d => (firstn n d, None, {| srcData := skipn n d; srcEnd := srcEnd s |})
  end.

Definition ioerrMessage (e : ioerr) : error :=
  match e with
  | EOF => u "EOF"
  | IOErr m => m
  end.

(** [io.ReadFull(r, buf)] with [len(buf) = n]. *)
Definition ReadFull (s : Source) (n : nat) : Result (bytes * Source) :=
  if Nat.leb n (List.length (srcData s)) then
    Ok (firstn n (srcData s),
        {| srcData := skipn n (srcData s); srcEnd := srcEnd s |})
  else
    match srcData s, srcEnd s with
    | _ :: _, None => Err (u "unexpected EOF")
    | _, _ => Err (ioerrMessage (endOf s))
    end.

(** The bytes an encrypted container starts with: salt, then nonce. *)
Definition headerSize : nat := SaltSize + NonceSize.

(** ** EncryptedWriter *)

(** [ewSeals] is not a field of the Go struct: it records the nonce and
    plaintext of every [gcm.Seal] call made through the writer. *)
Record EncryptedWriter := {
  ewWriter : Sink;
  ewKey : bytes;      (* the key inside [gcm] *)
  ewNonce : bytes;
  ewSeals : list (bytes * bytes)
}.

(** [NewEncryptedWriter]; [randSalt] and [randNonce] are the outcomes of
    the two [rand.Read] calls. *)
Definition NewEncryptedWriter (c : Cipher) (randSalt randNonce : Result bytes)
           (w : Sink) (password : chars) : Result EncryptedWriter :=
  match randSalt with
  | Err e => Err e
  | Ok salt =>
      let key := pbkdf2Key c password salt in
      match randNonce with
      | Err e => Err e
      | Ok nonce =>
          match Sink_Write w salt with
          | (_, (_, Some e)) => Err e
          | (w1, (_, None)) =>
              match Sink_Write w1 nonce with
              | (_, (_, Some e)) => Err e
              | (w2, (_, None)) =>
                  Ok {| ewWriter := w2; ewKey := key; ewNonce := nonce;
                        ewSeals := [] |}
              end
          end
      end
  end.

(** [EncryptedWriter.Write] *)
Definition EncryptedWriter_Write (c : Cipher) (ew : EncryptedWriter)
           (p : bytes) : EncryptedWriter * (nat * option error) :=
  let encrypted := gcmSeal c (ewKey ew) (ewNonce ew) p in
  let '(w', r) := Sink_Write (ewWriter ew) encrypted in
  ({| ewWriter := w'; ewKey := ewKey ew; ewNonce := ewNonce ew;
      ewSeals := ewSeals ew ++ [(ewNonce ew, p)] |}, r).

(** A sequence of [Write] calls; as [io.Copy] and the container writers
    do, it stops at the first error. *)
Fixpoint EncryptedWriter_WriteAll (c : Cipher) (ew : EncryptedWriter)
         (chunks : list bytes) : EncryptedWriter * option error :=
  match chunks with
  | [] => (ew, None)
  | p :: rest =>
      match EncryptedWriter_Write c ew p with
      | (ew', (_, Some e)) => (ew', Some e)
      | (ew', (_, None)) => EncryptedWriter_WriteAll c ew' rest
      end
  end.

(** ** EncryptedReader *)

Record EncryptedReader := {
  erReader : Source;
  erKey : bytes;
  erNonce : bytes
}.

(** [NewEncryptedReader] *)
Definition NewEncryptedReader (c : Cipher) (r : Source) (password : chars)
  : Result EncryptedReader :=
  match ReadFull r SaltSize with
  | Err e => Err e
  | Ok (salt, r1) =>
      let key := pbkdf2Key c password salt in
      match ReadFull r1 NonceSize with
      | Err e => Err e
      | Ok (nonce, r2) =>
          Ok {| erReader := r2; erKey := key; erNonce := nonce |}
      end
  end.

(** The outcome of one [Read(p)]: the bytes copied into [p], the count
    [n] returned, the error returned. *)
Record ReadResult := {
  rrCopied : bytes;
  rrN : nat;
  rrErr : option error
}.

(** [fmt.Errorf("decryption failed: %w", err)] for the error of
    [gcm.Open]. *)
Definition decryptionFailed : error :=
  u "decryption failed: cipher: message authentication failed".

(** The bytes a [Read(p)] with [len(p) = plen] takes from the underlying
    reader and hands to [gcm.Open]. *)
Definition sealedChunk (er : EncryptedReader) (plen : nat) : bytes :=
  fst (fst (Source_Read (erReader er) (plen + Overhead))).

(** [EncryptedReader.Read] with [len(p) = plen]. *)
Definition EncryptedReader_Read (c : Cipher) (er : EncryptedReader)
           (plen : nat) : EncryptedReader * ReadResult :=
  let '(encrypted, err, r') := Source_Read (erReader er) (plen + Overhead) in
  let er' := {| erReader := r'; erKey := erKey er; erNonce := erNonce er |} in
  match err with
  | Some (IOErr e) =>
      (er', {| rrCopied := []; rrN := 0;
               rrErr := Some (u "read error: " ++ e) |})
  | _ =>
      match Open c (erKey er) (erNonce er) encrypted with
      | None =>
          (er', {| rrCopied := []; rrN := 0;
                   rrErr := Some decryptionFailed |})
      | Some decrypted =>
          (er', {| rrCopied := firstn plen decrypted;
                   rrN := List.length decrypted;
                   rrErr := None |})
      end
  end.

(** What a consumer that reads through a buffer of [bufSize] bytes (the
    [bufio.Reader] inside [gzip.NewReader]) gets out of the reader: the
    plaintext of the reads that succeed, then the first error. *)
Fixpoint drain (c : Cipher) (bufSize fuel : nat) (er : EncryptedReader)
  : Source :=
  match fuel with
  | 0 => {| srcData := []; srcEnd := Some (u "multiple Read calls return no data or error") |}
  | S fuel' =>
      let '(er', rr) := EncryptedReader_Read c er bufSize in
      match rrErr rr with
      | Some e => {| srcData := []; srcEnd := Some e |}
      | None =>
          let rest := drain c bufSize fuel' er' in
          {| srcData := rrCopied rr ++ srcData rest; srcEnd := srcEnd rest |}
      end
  end.

Definition bufioSize : nat := 4096.

(** The reader handed to the container decoder by [Operator.Extract]. *)
Inductive Reader :=
| FileReader (f : Source)
| Decrypting (er : EncryptedReader).

Definition readerStream (c : Cipher) (r : Reader) : Source :=
  match r with
  | FileReader f => f
  | Decrypting er =>
      drain c bufioSize (S (List.length (srcData (erReader er)))) er
  end.

End Crypto.

(* ===================================================================== *)
(** * extractZip: the worker pool

    The goroutines of [extractZip] are interleaved by the Go scheduler.  A
    state records the rest of the [range] loop, the goroutines started and
    not yet returned, the tokens held in the semaphore channel [sem], the
    counter of the wait group, the one-slot buffer of [errChan] and the
    events so far.  Two transitions: the loop starts the goroutine of the
    next file (it needs a free slot in [sem]), a started goroutine runs its
    body and returns.  The body of a goroutine is taken as one transition,
    at the point where it returns. *)
(* ===================================================================== *)

Module Pool.
Import Str FilePath Models World Archive.

(** [returned] is not a variable of the Go function: it records the
    goroutines that have returned, each with the result of its call of
    [extractZipFile]. *)
Record State := {
  pending : list ZipFile;
  running : list ZipFile;
  sem : nat;
  wg : nat;
  errChan : option error;
  trace : Trace;
  returned : list (ZipFile * Result unit)
}.

Inductive Choice :=
| Spawn
| Finish (i : nat).

Fixpoint removeNth {A} (i : nat) (l : list A) : list A :=
  match i, l with
  | _, [] => []
  | 0, _ :: r => r
  | S j, x :: r => x :: removeNth j r
  end.

Section Run.
Variable sep : ascii.
Variable wd : option chars.
Variable fsys : FileSystem.
Variable outputPath : chars.
Variable opts : ArchiveOptions.

Definition init (files : list ZipFile) (tr : Trace) : State :=
  {| pending := files; running := []; sem := 0; wg := 0;
     errChan := None; trace := tr; returned := [] |}.

(** The non-blocking send [select { case errChan <- err: default: }]. *)
Definition trySend (ch : option error) (e : error) : option error :=
  match ch with
  | None => Some e
  | Some _ => ch
  end.

(** [fmt.Fprintf(os.Stderr, "Error extracting %s: %v\n", f.Name, err)] *)
Definition stderrLine (f : ZipFile) (e : error) : Event :=
  Stderr (u "Error extracting " ++ zName f ++ u ": " ++ e).

(** The body of the goroutine started for [f]: the result of
    [extractZipFile], the buffer of [errChan] and the events after
    it. *)
Definition task (f : ZipFile) (ch : option error) (tr : Trace)
  : Result unit * option error * Trace :=
  match extractZipFile sep wd fsys f outputPath opts tr with
  | (tr', Ok _) => (Ok tt, ch, tr')
  | (tr', Err e) => (Err e, trySend ch e, tr' ++ [stderrLine f e])
  end.

Definition stepWith (c : Choice) (s : State) : option State :=
  match c with
  | Spawn =>
      match pending s with
      | f :: rest =>
          if Z.ltb (Z.of_nat (sem s)) (Workers opts) then
            Some {| pending := rest; running := running s ++ [f];
                    sem := S (sem s); wg := S (wg s);
                    errChan := errChan s; trace := trace s;
                    returned := returned s |}
          else None
      | [] => None
      end
  | Finish i =>
      match nth_error (running s) i with
      | Some f =>
          let '(res, ch, tr) := task f (errChan s) (trace s) in
          Some {| pending := pending s; running := removeNth i (running s);
                  sem := pred (sem s); wg := pred (wg s);
                  errChan := ch; trace := tr;
                  returned := returned s ++ [(f, res)] |}
      | None => None
      end
  end.

Definition step (s s' : State) : Prop :=
  exists c, stepWith c s = Some s'.

Inductive steps : State -> State -> Prop :=
| steps_refl : forall s, steps s s
| steps_step : forall s1 s2 s3, steps s1 s2 -> step s2 s3 -> steps s1 s3.

(** The loop is over and [wg.Wait] returns. *)
Definition finished (s : State) : Prop :=
  pending s = [] /\ wg s = 0.

(** The final [select] on [errChan]. *)
Definition outcome (s : State) : Result unit :=
  match errChan s with
  | Some e => Err e
  | None => Ok tt
  end.

(** [extractZip] returns [r] after the events [tr]; [opened] is the
    result of [zip.OpenReader].  With a negative [Workers] the call
    [make(chan struct{}, opts.Workers)] panics and nothing is returned. *)
Definition extractZip_returns (opened : Result (list ZipFile))
           (tr0 : Trace) (tr : Trace) (r : Result unit) : Prop :=
  match opened with
  | Err e => tr = tr0 /\ r = Err e
  | Ok files =>
      (0 <= Workers opts)%Z
      /\ exists s, steps (init files tr0) s /\ finished s
                   /\ tr = trace s /\ r = outcome s
  end.

(** A run under a given scheduler. *)
Fixpoint run (sched : State -> Choice) (fuel : nat) (s : State) : State :=
  match fuel with
  | 0 => s
  | S fuel' =>
      match stepWith (sched s) s with
      | Some s' => run sched fuel' s'
      | None => s
      end
  end.

(** The scheduler that starts a goroutine whenever a slot is free and
    otherwise lets the oldest one return. *)
Definition eager (s : State) : Choice :=
  match pending s with
  | _ :: _ =>
      if Z.ltb (Z.of_nat (sem s)) (Workers opts) then Spawn else Finish 0
  | [] => Finish 0
  end.

(** The first error among the results of the goroutines that have
    returned. *)
Fixpoint firstError (rs : list (ZipFile * Result unit)) : option error :=
  match rs with
  | [] => None
  | (_, Err e) :: _ => Some e
  | (_, Ok _) :: rest => firstError rest
  end.

(** What holds of every state of a run over [files]. *)
Record Inv (files : list ZipFile) (tr0 : Trace) (s : State) : Prop := {
  inv_sem : sem s = List.length (running s);
  inv_wg : wg s = List.length (running s);
  inv_cap : sem s = 0 \/ (Z.of_nat (sem s) <= Workers opts)%Z;
  inv_all : Permutation (map fst (returned s) ++ running s ++ pending s)
                        files;
  inv_err : errChan s = firstError (returned s);
  inv_trace : exists new, trace s = tr0 ++ new;
  inv_log : forall f e, In (f, Err e) (returned s) ->
                        In (stderrLine f e) (trace s);
  inv_ran : forall f r, In (f, r) (returned s) ->
              exists tr,
                snd (extractZipFile sep wd fsys f outputPath opts tr) = r
}.

(** Steps left before a run is over. *)
Definition measure (s : State) : nat :=
  2 * List.length (pending s) + List.length (running s).

End Run.

End Pool.

(* ===================================================================== *)
(** * internal/archive: compression and listing *)
(* ===================================================================== *)

Module Codec.
Import Str FilePath Models World Archive.

(** The file tree under the input path, as [os.Lstat] and the sorted
    directory listing of [filepath.Walk] show it. *)
Inductive FileTree :=
| File (mode : Z) (data : bytes)
| Dir (mode : Z) (children : list (chars * FileTree)).

Definition IsDir (t : FileTree) : bool :=
  match t with
  | Dir _ _ => true
  | File _ _ => false
  end.

Definition Mode (t : FileTree) : Z :=
  match t with
  | Dir m _ | File m _ => m
  end.

Definition contents (t : FileTree) : bytes :=
  match t with
  | File _ d => d
  | Dir _ _ => []
  end.

(** The calls [filepath.Walk] makes to its function: the node itself,
    then its children in listing order, each with its subtree. *)
Fixpoint walk (sep : ascii) (path : chars) (t : FileTree)
  : list (chars * FileTree) :=
  (path, t) ::
  match t with
  | File _ _ => []
  | Dir _ children =>
      (fix visit (cs : list (chars * FileTree)) :=
         match cs with
         | [] => []
         | (name, child) :: rest =>
             walk sep (Join sep [path; name]) child ++ visit rest
         end) children
  end.

(** An entry handed to the container writer: the header fields the code
    sets, and the bytes copied after it. *)
Record Written := {
  wName : chars;
  wIsDir : bool;
  wMode : Z;
  wData : bytes
}.

Definition relError : error := u "Rel: can't make path relative".

(** The function [compressZip] passes to [filepath.Walk]. *)
Definition zipVisit (sep : ascii) (inputPath : chars)
           (v : chars * FileTree) : Result Written :=
  let '(path, fi) := v in
  match Rel sep inputPath path with
  | None => Err relError
  | Some relPath =>
      let name := ToSlash sep relPath in
      Ok {| wName := if IsDir fi then name ++ [slash] else name;
            wIsDir := IsDir fi;
            wMode := Mode fi;
            wData := contents fi |}
  end.

(** The function [compressTarGz] passes to [filepath.Walk]. *)
Definition tarVisit (sep : ascii) (inputPath : chars)
           (v : chars * FileTree) : Result Written :=
  let '(path, fi) := v in
  match Rel sep inputPath path with
  | None => Err relError
  | Some relPath =>
      Ok {| wName := ToSlash sep relPath;
            wIsDir := IsDir fi;
            wMode := Mode fi;
            wData := contents fi |}
  end.

(** [filepath.Walk] stops at the first error its function returns; the
    entries written before it stay in the archive. *)
Fixpoint visitAll (visit : chars * FileTree -> Result Written)
         (vs : list (chars * FileTree)) : list Written * Result unit :=
  match vs with
  | [] => ([], Ok tt)
  | v :: rest =>
      match visit v with
      | Err e => ([], Err e)
      | Ok w =>
          let '(ws, r) := visitAll visit rest in (w :: ws, r)
      end
  end.

Definition singleFile (sep : ascii) (inputPath : chars) (info : FileTree)
  : Written :=
  {| wName := Base sep inputPath; wIsDir := false;
     wMode := Mode info; wData := contents info |}.

(** [compressZip]: the entries written, and the error returned.  The
    progress lines of [Verbose] are left out. *)
Definition compressZip (sep : ascii) (inputPath : chars) (info : FileTree)
  : list Written * Result unit :=
  if IsDir info then visitAll (zipVisit sep inputPath) (walk sep inputPath info)
  else ([singleFile sep inputPath info], Ok tt).

(** [compressTarGz] *)
Definition compressTarGz (sep : ascii) (inputPath : chars) (info : FileTree)
  : list Written * Result unit :=
  if IsDir info then visitAll (tarVisit sep inputPath) (walk sep inputPath info)
  else ([singleFile sep inputPath info], Ok tt).

(** What the readers of [archive/zip] and [archive/tar] give back for an
    entry written by their writers. *)
Definition asZipFile (w : Written) : ZipFile :=
  {| zName := wName w; zIsDir := wIsDir w; zMode := wMode w;
     zUncompressedSize64 := Z.of_nat (List.length (wData w));
     zOpenErr := None; zData := wData w; zReadErr := None |}.

Definition asTarEntry (w : Written) : TarEntry :=
  {| tName := wName w;
     tTypeflag := if wIsDir w then TypeDir else TypeReg;
     tSize := Z.of_nat (List.length (wData w));
     tMode := wMode w; tData := wData w; tReadErr := None |}.

(** ** Listing *)

Definition decimal (n : Z) : chars :=
  of_string (NilZero.string_of_int (Z.to_int n)).

(** [fmt.Printf("  %s (%d bytes)\n", name, size)] *)
Definition listLine (name : chars) (size : Z) : chars :=
  u "  " ++ name ++ u " (" ++ decimal size ++ u " bytes)".

Fixpoint printAll (lines : list chars) : M unit :=
  match lines with
  | [] => ret tt
  | l :: rest => emit (Stdout l) ;;; printAll rest
  end.

(** [listZip]; [opened] is the result of [zip.OpenReader]. *)
Definition listZip (opened : Result (list ZipFile)) : M unit :=
  match opened with
  | Err e => fail e
  | Ok files =>
      emit (Stdout (u "Archive contents:")) ;;;
      printAll (map (fun f => listLine (zName f) (zUncompressedSize64 f)) files)
  end.

(** [listTarGz]; [opened] is the result of [os.Open], [gzip.NewReader]
    and [tar.NewReader]. *)
Definition listTarGz (opened : Result TarStream) : M unit :=
  match opened with
  | Err e => fail e
  | Ok ts =>
      emit (Stdout (u "Archive contents:")) ;;;
      printAll (map (fun e => listLine (tName e) (tSize e)) (tsEntries ts)) ;;;
      orFail (tsEnd ts)
  end.

End Codec.

(* ===================================================================== *)
(** * internal/archive: Operator *)
(* ===================================================================== *)

Module Operator.
Import Str FilePath Models World Archive Crypto Pool Codec.

(** What the operating system and the standard library answer during one
    operation. *)
Record Env := {
  envSep : ascii;                               (* filepath.Separator *)
  envWd : option chars;                         (* os.Getwd *)
  envFs : FileSystem;
  envCipher : Cipher;
  osOpen : chars -> Result Source;              (* os.Open, and the bytes of the file *)
  zipOpenReader : chars -> Result (list ZipFile);
  gzipTarReader : Source -> Result TarStream;   (* gzip.NewReader, tar.NewReader *)
  osStat : chars -> Result FileTree;
  osCreate : chars -> Result Sink;
  randSalt : Result bytes;                      (* rand.Read(salt) *)
  randNonce : Result bytes;                     (* rand.Read(nonce) *)
  (** the [Write] calls the container writers make on the writer they
      are given *)
  zipWrites : CompressionLevel -> list Written -> list bytes;
  tarGzWrites : CompressionLevel -> list Written -> list bytes
}.

Definition wrap (context : string) (e : error) : error :=
  u context ++ u ": " ++ e.

(** ** Extract *)

Inductive Route :=
| Stop (e : error)
| ViaTarGz (reader : Reader)
| ViaZip.

(** [Extract] up to the choice of the decoder. *)
Definition Extract_route (env : Env) (opts : ArchiveOptions)
           (inputPath : chars) : Route :=
  match osOpen env inputPath with
  | Err e => Stop (wrap "open archive" e)
  | Ok inFile =>
      let reader :=
        if negb (isEmpty (Password opts)) then
          match NewEncryptedReader (envCipher env) inFile (Password opts) with
          | Err e => Err (wrap "decryption setup" e)
          | Ok er => Ok (Decrypting er)
          end
        else Ok (FileReader inFile) in
      match reader with
      | Err e => Stop e
      | Ok reader =>
          let ext := ToLower (Ext (envSep env) inputPath) in
          if Str.eqb ext (u ".gz") then ViaTarGz reader else ViaZip
      end
  end.

Definition announce (verbose : bool) (line : chars) (tr : Trace) : Trace :=
  if verbose then tr ++ [Stdout line] else tr.

(** [Operator.Extract] returns [r] after the events [tr]. *)
Definition Extract_returns (env : Env) (opts : ArchiveOptions)
           (inputPath outputPath : chars) (tr0 tr : Trace) (r : Result unit)
  : Prop :=
  let tr1 := announce (Verbose opts)
               (u "Extracting " ++ inputPath ++ u " to " ++ outputPath ++ u "...")
               tr0 in
  match Extract_route env opts inputPath with
  | Stop e => tr = tr1 /\ r = Err e
  | ViaTarGz reader =>
      (tr, r) = extractTarGz (envSep env) (envFs env)
                  (gzipTarReader env (readerStream (envCipher env) reader))
                  outputPath opts tr1
  | ViaZip =>
      extractZip_returns (envSep env) (envWd env) (envFs env) outputPath opts
        (zipOpenReader env inputPath) tr1 tr r
  end.

(** ** Compress *)

Inductive Writer :=
| Plain (w : Sink)
| Encrypting (ew : EncryptedWriter).

Fixpoint Sink_WriteAll (w : Sink) (chunks : list bytes) : Sink * option error :=
  match chunks with
  | [] => (w, None)
  | p :: rest =>
      match Sink_Write w p with
      | (w', (_, Some e)) => (w', Some e)
      | (w', (_, None)) => Sink_WriteAll w' rest
      end
  end.

Definition Writer_WriteAll (c : Cipher) (w : Writer) (chunks : list bytes)
  : Writer * option error :=
  match w with
  | Plain s => let '(s', e) := Sink_WriteAll s chunks in (Plain s', e)
  | Encrypting ew =>
      let '(ew', e) := EncryptedWriter_WriteAll c ew chunks in (Encrypting ew', e)
  end.

Record Compressed := {
  coResult : Result unit;           (* the error returned *)
  coEntries : list Written;         (* the entries given to the container writer *)
  coWriter : option Writer          (* the writer after the last write *)
}.

(** [Operator.Compress].  The container writer is given the entries and
    turns them into [Write] calls on [writer]; the error returned is that
    of the walk, or else that of the first failing write. *)
Definition Compress (env : Env) (opts : ArchiveOptions)
           (inputPath outputPath : chars) : Compressed :=
  match osStat env inputPath with
  | Err e => {| coResult := Err (wrap "input path error" e);
                coEntries := []; coWriter := None |}
  | Ok info =>
  match osCreate env outputPath with
  | Err e => {| coResult := Err (wrap "create output file" e);
                coEntries := []; coWriter := None |}
  | Ok outFile =>
      let writer :=
        if negb (isEmpty (Password opts)) then
          match NewEncryptedWriter (envCipher env) (randSalt env) (randNonce env)
                                   outFile (Password opts) with
          | Err e => Err (wrap "encryption setup" e)
          | Ok ew => Ok (Encrypting ew)
          end
        else Ok (Plain outFile) in
      match writer with
      | Err e => {| coResult := Err e; coEntries := []; coWriter := None |}
      | Ok writer =>
          let '(entries, walked, chunks) :=
            match Format opts with
            | FormatZip =>
                let '(es, r) := compressZip (envSep env) inputPath info in
                (es, r, zipWrites env (Level opts) es)
            | FormatTarGz =>
                let '(es, r) := compressTarGz (envSep env) inputPath info in
                (es, r, tarGzWrites env (Level opts) es)
            end in
          let '(writer', werr) := Writer_WriteAll (envCipher env) writer chunks in
          {| coResult := match walked, werr with
                         | Err e, _ => Err e
                         | Ok _, Some e => Err e
                         | Ok _, None => Ok tt
                         end;
             coEntries := entries;
             coWriter := Some writer' |}
      end
  end
  end.

(** ** List *)

(** [Operator.List] *)
Definition List (env : Env) (inputPath : chars) : M unit :=
  let ext := ToLower (Ext (envSep env) inputPath) in
  if Str.eqb ext (u ".zip") then listZip (zipOpenReader env inputPath)
  else if Str.eqb ext (u ".gz") then
    listTarGz (match osOpen env inputPath with
               | Err e => Err e
               | Ok file => gzipTarReader env file
               end)
  else fail (u "unsupported archive format: " ++ ext).

End Operator.

(* ===================================================================== *)
(** * internal/archive: format names *)
(* ===================================================================== *)

Module Naming.
Import Str Models.

Definition u (s : string) : chars := of_string s.

(** [ParseFormat] *)
Definition ParseFormat (format : chars) : ArchiveFormat :=
  let lower := ToLower format in
  if Str.eqb lower (u "tar.gz") || Str.eqb lower (u "tgz") then FormatTarGz
  else FormatZip.

(** [GetExtension] *)
Definition GetExtension (format : ArchiveFormat) : chars :=
  match format with
  | FormatTarGz => u ".tar.gz"
  | FormatZip => u ".zip"
  end.

End Naming.

(* ===================================================================== *)
(** * internal/cli: the argument parser

    [flag.FlagSet.Parse] belongs to the standard library: [Parse] takes its
    outcome -- the values of the flag variables and the remaining
    arguments -- as a parameter. *)
(* ===================================================================== *)

Module Cli.
Import Str Models World.

Definition u (s : string) : chars := of_string s.

Definition dash : ascii := "-"%char.

(** [strings.ContainsRune("cvxtfjzZ", ch)].  The loop of the source ranges
    over runes; a byte that is not ASCII belongs to a rune outside the
    set, so the test on bytes gives the same answer for the whole
    argument. *)
Definition isFlagLetter (ch : ascii) : bool :=
  existsb (Ascii.eqb ch) (u "cvxtfjzZ").

(** [strings.ContainsAny(s, chars)] *)
Definition ContainsAny (s set : chars) : bool :=
  existsb (fun ch => existsb (Ascii.eqb ch) set) s.

(** What one argument contributes to the result of
    [processUnixStyleFlags]. *)
Definition expandArg (arg : chars) : list chars :=
  if HasPrefix arg (u "-") && negb (HasPrefix arg (u "--"))
     && Nat.ltb 2 (List.length arg)
  then
    let flags := skipn 1 arg in
    if forallb isFlagLetter flags && ContainsAny flags (u "cxt")
    then map (fun ch => [dash; ch]) flags
    else [arg]
  else [arg].

(** [Parser.processUnixStyleFlags] *)
Fixpoint processUnixStyleFlags (args : list chars) : list chars :=
  match args with
  | [] => []
  | arg :: rest => expandArg arg ++ processUnixStyleFlags rest
  end.

(** [models.CLIArgs] *)
Record CLIArgs := {
  cliAction : chars;
  cliInput : chars;
  cliOutput : chars;
  cliFormat : chars;
  cliPassword : chars;
  cliCompression : chars;
  cliWorkers : Z;
  cliVerbose : bool;
  cliVersion : bool;
  cliHelp : bool
}.

(** The flag variables of [Parse] after [flagSet.Parse], and
    [flagSet.Args()]. *)
Record FlagValues := {
  fvAction : chars;
  fvInput : chars;
  fvOutput : chars;
  fvFormat : chars;
  fvPassword : chars;
  fvCompression : chars;
  fvWorkers : Z;
  fvVerbose : bool;
  fvVersion : bool;
  fvHelp : bool;
  fvH : bool;
  fvC : bool;        (* -c *)
  fvX : bool;        (* -x *)
  fvT : bool;        (* -t *)
  fvV : bool;        (* -v *)
  fvZ : bool;        (* -z *)
  fvJ : bool;        (* -j *)
  fvZ7 : bool;       (* -Z *)
  fvArgs : list chars
}.

(** [posArgs[i]] for an index known to be in range. *)
Definition arg (posArgs : list chars) (i : nat) : chars := nth i posArgs [].

(** The input and output taken from the positional arguments. *)
Definition positional (fv : FlagValues) : chars * chars :=
  let posArgs := fvArgs fv in
  let n := List.length posArgs in
  if fvC fv && Nat.leb 1 n then
    (if Nat.ltb 1 n then arg posArgs 1 else [], arg posArgs 0)
  else if (fvX fv || fvT fv) && Nat.leb 1 n then
    (arg posArgs 0, if Nat.ltb 1 n then arg posArgs 1 else [])
  else if Nat.ltb 0 n then
    (arg posArgs 0, if Nat.ltb 1 n then arg posArgs 1 else [])
  else ([], []).

(** [Parse], from "Build result" on. *)
Definition buildArgs (fv : FlagValues) : CLIArgs :=
  if fvHelp fv || fvH fv then
    {| cliAction := []; cliInput := []; cliOutput := []; cliFormat := [];
       cliPassword := []; cliCompression := []; cliWorkers := fvWorkers fv;
       cliVerbose := false; cliVersion := false; cliHelp := true |}
  else if fvVersion fv then
    {| cliAction := []; cliInput := []; cliOutput := []; cliFormat := [];
       cliPassword := []; cliCompression := []; cliWorkers := fvWorkers fv;
       cliVerbose := false; cliVersion := true; cliHelp := false |}
  else
    let unixVerbose := fvV fv in
    let unixFormat :=
      if fvZ fv then u "tar.gz"
      else if fvJ fv then u "bzip2"
      else if fvZ7 fv then u "7zip"
      else fvFormat fv in
    let unixAction :=
      if fvC fv then u "compress"
      else if fvX fv then u "extract"
      else if fvT fv then u "list"
      else [] in
    let '(unixInput, unixOutput) := positional fv in
    let fromFlags := negb (isEmpty unixAction) in
    {| cliAction := if fromFlags then unixAction else fvAction fv;
       cliInput := if fromFlags then unixInput else fvInput fv;
       cliOutput := if fromFlags then unixOutput else fvOutput fv;
       cliFormat := unixFormat;
       cliPassword := fvPassword fv;
       cliCompression := fvCompression fv;
       cliWorkers := fvWorkers fv;
       cliVerbose := if unixVerbose then unixVerbose else fvVerbose fv;
       cliVersion := false;
       cliHelp := false |}.

(** The same flag values with other values of [-action], [-input] and
    [-output]. *)
Definition withLongForm (fv : FlagValues) (action input output : chars)
  : FlagValues :=
  {| fvAction := action; fvInput := input; fvOutput := output;
     fvFormat := fvFormat fv; fvPassword := fvPassword fv;
     fvCompression := fvCompression fv; fvWorkers := fvWorkers fv;
     fvVerbose := fvVerbose fv; fvVersion := fvVersion fv;
     fvHelp := fvHelp fv; fvH := fvH fv; fvC := fvC fv; fvX := fvX fv;
     fvT := fvT fv; fvV := fvV fv; fvZ := fvZ fv; fvJ := fvJ fv;
     fvZ7 := fvZ7 fv; fvArgs := fvArgs fv |}.

(** The same flag values with other positional arguments. *)
Definition withArgs (fv : FlagValues) (posArgs : list chars) : FlagValues :=
  {| fvAction := fvAction fv; fvInput := fvInput fv; fvOutput := fvOutput fv;
     fvFormat := fvFormat fv; fvPassword := fvPassword fv;
     fvCompression := fvCompression fv; fvWorkers := fvWorkers fv;
     fvVerbose := fvVerbose fv; fvVersion := fvVersion fv;
     fvHelp := fvHelp fv; fvH := fvH fv; fvC := fvC fv; fvX := fvX fv;
     fvT := fvT fv; fvV := fvV fv; fvZ := fvZ fv; fvJ := fvJ fv;
     fvZ7 := fvZ7 fv; fvArgs := posArgs |}.

(** [Parser.Parse]; [flagParse] is [flagSet.Parse] followed by the reading
    of the flag variables. *)
Definition Parse (flagParse : list chars -> Result FlagValues)
           (args : list chars) : Result CLIArgs :=
  match flagParse (processUnixStyleFlags args) with
  | Err e => Err e
  | Ok fv => Ok (buildArgs fv)
  end.

End Cli.

(* ===================================================================== *)
(** * cmd/gar: main, up to the call of the operator *)
(* ===================================================================== *)

Module Main.
Import Str Models World Naming Cli.

Inductive Command :=
| ParseFailure (e : error)                 (* message on stderr, exit 1 *)
| Usage (status : Z)                       (* PrintUsage, os.Exit(status) *)
| PrintVersion
| RunCompress (opts : ArchiveOptions) (input output : chars)
| RunExtract (opts : ArchiveOptions) (input output : chars)
| RunList (opts : ArchiveOptions) (input : chars)
| UnknownAction (action : chars).          (* usage, exit 1 *)

(** The options [main] builds from the parsed arguments. *)
Definition buildOptions (args : CLIArgs) : ArchiveOptions :=
  {| Format := ParseFormat (cliFormat args);
     Level := if Str.eqb (cliCompression args) (u "fastest") then LevelFastest
              else if Str.eqb (cliCompression args) (u "best") then LevelBest
              else LevelNormal;
     Password := cliPassword args;
     Workers := cliWorkers args;
     Verbose := cliVerbose args |}.

Definition isOneOf (s : chars) (a b : string) : bool :=
  Str.eqb s (u a) || Str.eqb s (u b).

(** [main]: what it does with the outcome of [parser.Parse]. *)
Definition main (parsed : Result CLIArgs) : Command :=
  match parsed with
  | Err e => ParseFailure e
  | Ok args =>
      if cliHelp args then Usage 0
      else if cliVersion args then PrintVersion
      else if isEmpty (cliAction args) || isEmpty (cliInput args) then Usage 1
      else
        let opts := buildOptions args in
        if isOneOf (cliAction args) "compress" "c" then
          RunCompress opts (cliInput args)
            (if isEmpty (cliOutput args)
             then cliInput args ++ GetExtension (Format opts)
             else cliOutput args)
        else if isOneOf (cliAction args) "extract" "x" then
          RunExtract opts (cliInput args)
            (if isEmpty (cliOutput args) then u "." else cliOutput args)
        else if isOneOf (cliAction args) "list" "l" then
          RunList opts (cliInput args)
        else UnknownAction (cliAction args)
  end.

End Main.

(* ===================================================================== *)
(** * Properties of runs, and sample inputs *)
(* ===================================================================== *)

Module Spec.
Import Str FilePath Models World Archive.

(** A file-system call made for the destination [dest]: it is aimed at
    [dest], or it creates the directory that holds [dest]. *)
Definition aimedAt (sep : ascii) (dest : chars) (ev : Event) : Prop :=
  match ev with
  | Fs op => op = MkdirAll (Dir sep dest) 493 \/ target op = dest
  | _ => True
  end.

End Spec.

(** The archive expected of a directory tree on a Unix host.  These
    definitions describe the entries by the names along the way from the
    root of the tree; the code is compared with them. *)
Module Expected.
Import Str FilePath Models World Codec.











(** [path] lies [names] below [input]: both are rooted or neither is,
    and [Clean] keeps of [path] the elements it keeps of [input],
    followed by [names]. *)
Definition below (input : chars) (names : list chars) (path : chars) : Prop :=
  isRooted slash path = isRooted slash input
  /\ cleanElems slash path = cleanElems slash input ++ names.

End Expected.

Module Samples.
Import Str FilePath Models World Archive Crypto Codec.

(** A file system on which every call succeeds. *)
Definition okFs : FileSystem := fun _ _ => None.

Definition home : option chars := Some (u "/home/user").

Definition quiet : ArchiveOptions :=
  {| Format := FormatZip; Level := LevelNormal; Password := [];
     Workers := 4; Verbose := false |}.

Definition text (s : string) : bytes := list_byte_of_string s.

Definition zipEntry (name : string) (data : bytes) : ZipFile :=
  {| zName := u name; zIsDir := false; zMode := 420;
     zUncompressedSize64 := Z.of_nat (List.length data);
     zOpenErr := None; zData := data; zReadErr := None |}.

Definition tarFile (name : string) (data : bytes) : TarEntry :=
  {| tName := u name; tTypeflag := TypeReg;
     tSize := Z.of_nat (List.length data); tMode := 420;
     tData := data; tReadErr := None |}.

(** A stand-in cipher for running the code on examples: the key is the
    password followed by the salt, the sealed text is the plaintext
    followed by a 16-byte tag made of key and nonce. *)
Definition toyTag (key nonce : bytes) : bytes :=
  firstn Overhead (key ++ nonce ++ repeat Byte.x00 Overhead).

Fixpoint bytesEqb (a b : bytes) : bool :=
  match a, b with
  | [], [] => true
  | x :: a', y :: b' => Byte.eqb x y && bytesEqb a' b'
  | _, _ => false
  end.

Definition toyCipher : Cipher :=
  {| pbkdf2Key := fun password salt => map byte_of_ascii password ++ salt;
     gcmSeal := fun key nonce p => p ++ toyTag key nonce;
     gcmOpen := fun key nonce ct =>
       let n := List.length ct - Overhead in
       if bytesEqb (skipn n ct) (toyTag key nonce)
       then Some (firstn n ct) else None |}.

Definition zeroSalt : bytes := repeat Byte.x00 SaltSize.
Definition oneNonce : bytes := repeat Byte.x01 NonceSize.

(** An encrypted file: salt, nonce, and "hi" sealed under the password
    "secret". *)
Definition sealedHi : Source :=
  {| srcData := zeroSalt ++ oneNonce
                ++ gcmSeal toyCipher (pbkdf2Key toyCipher (u "secret") zeroSalt)
                     oneNonce (text "hi");
     srcEnd := None |}.

(** A stand-in for the gzip and tar readers: it fails with the error of
    a stream that ends in an error before its first byte, and finds no
    entry otherwise. *)
Definition toyGzipTar (s : Source) : Result TarStream :=
  match srcData s, srcEnd s with
  | [], Some e => Err e
  | _, _ => Ok {| tsEntries := []; tsEnd := None |}
  end.

(** An environment with one archive file [file] holding the zip entries
    [files]. *)
Definition toyEnv (file : Source) (files : list ZipFile) : Operator.Env :=
  {| Operator.envSep := slash;
     Operator.envWd := home;
     Operator.envFs := okFs;
     Operator.envCipher := toyCipher;
     Operator.osOpen := fun _ => Ok file;
     Operator.zipOpenReader := fun _ => Ok files;
     Operator.gzipTarReader := toyGzipTar;
     Operator.osStat := fun _ => Err (u "stat: no such file or directory");
     Operator.osCreate := fun _ => Ok {| sinkData := []; sinkErr := None |};
     Operator.randSalt := Ok zeroSalt;
     Operator.randNonce := Ok oneNonce;
     Operator.zipWrites := fun _ _ => [];
     Operator.tarGzWrites := fun _ _ => [] |}.

Definition withPassword (password : string) : ArchiveOptions :=
  {| Format := FormatZip; Level := LevelNormal; Password := u password;
     Workers := 4; Verbose := false |}.

Definition threeFiles : list ZipFile :=
  [zipEntry "a.txt" (text "A");
   zipEntry "../escape.txt" (text "E");
   zipEntry "b.txt" (text "B")].

Definition twoWorkers : ArchiveOptions :=
  {| Format := FormatZip; Level := LevelNormal; Password := [];
     Workers := 2; Verbose := false |}.

(** The run of [extractZip] over [threeFiles] into "/tmp/out" that starts
    a goroutine whenever a slot is free, after [n] steps. *)
Definition sampleRun (n : nat) : Pool.State :=
  Pool.run slash home okFs (u "/tmp/out") twoWorkers
           (Pool.eager twoWorkers) n (Pool.init threeFiles []).


Definition oneWorker : ArchiveOptions :=
  {| Format := FormatZip; Level := LevelNormal; Password := [];
     Workers := 1; Verbose := false |}.

(** The run of [extractZip] over [threeFiles] with one worker. *)
Definition serialRun (n : nat) : Pool.State :=
  Pool.run slash home okFs (u "/tmp/out") oneWorker
           (Pool.eager oneWorker) n (Pool.init threeFiles []).

(** Ten bytes: too short for salt and nonce. *)
Definition tenBytes : Source :=
  {| srcData := repeat Byte.x50 10; srcEnd := None |}.

(** Sixty bytes standing for the file of a zip archive. *)
Definition sixtyBytes : Source :=
  {| srcData := repeat Byte.x50 60; srcEnd := None |}.

Definition helloTree : FileTree :=
  Dir 493 [(u "a", Dir 493 [(u "b.txt", File 420 (text "hi"))])].

(** The flag values of [gar -cvf archive.zip folder -input=other]: the
    flags [-c] and [-v], two positional arguments. *)
Definition cvfFlags : Cli.FlagValues :=
  {| Cli.fvAction := []; Cli.fvInput := []; Cli.fvOutput := [];
     Cli.fvFormat := u "zip"; Cli.fvPassword := [];
     Cli.fvCompression := u "normal"; Cli.fvWorkers := 8;
     Cli.fvVerbose := false; Cli.fvVersion := false; Cli.fvHelp := false;
     Cli.fvH := false; Cli.fvC := true; Cli.fvX := false; Cli.fvT := false;
     Cli.fvV := true; Cli.fvZ := false; Cli.fvJ := false; Cli.fvZ7 := false;
     Cli.fvArgs := [u "archive.zip"; u "folder"] |}.

(** A stand-in cipher whose tag also depends on the length of the
    plaintext. *)
Definition byteOfNat (n : nat) : Byte.byte :=
  match Byte.of_nat (n mod 256) with
  | Some b => b
  | None => Byte.x00
  end.

Definition framedCipher : Cipher :=
  {| pbkdf2Key := fun password salt => map byte_of_ascii password ++ salt;
     gcmSeal := fun key nonce p =>
       p ++ firstn Overhead (byteOfNat (List.length p) :: key ++ nonce
                               ++ repeat Byte.x00 Overhead);
     gcmOpen := fun key nonce ct =>
       let n := List.length ct - Overhead in
       if bytesEqb (skipn n ct)
            (firstn Overhead (byteOfNat n :: key ++ nonce
                                ++ repeat Byte.x00 Overhead))
       then Some (firstn n ct) else None |}.

Definition emptySink : Sink := {| sinkData := []; sinkErr := None |}.

(** The writer made for a password with [zeroSalt] and [oneNonce] over
    an empty file. *)
Definition writerFor (c : Cipher) (password : string) : EncryptedWriter :=
  match NewEncryptedWriter c (Ok zeroSalt) (Ok oneNonce) emptySink (u password) with
  | Ok ew => ew
  | Err _ => {| ewWriter := emptySink; ewKey := []; ewNonce := []; ewSeals := [] |}
  end.

(** The arguments of [gar -c -z -input=notes], after parsing: compress,
    no output given. *)
Definition compressNotes : Cli.CLIArgs :=
  {| Cli.cliAction := u "compress"; Cli.cliInput := u "notes";
     Cli.cliOutput := []; Cli.cliFormat := u "tar.gz";
     Cli.cliPassword := []; Cli.cliCompression := u "best";
     Cli.cliWorkers := 8; Cli.cliVerbose := false;
     Cli.cliVersion := false; Cli.cliHelp := false |}.

(** The flag values of [gar -action=extract -input=a.zip -j]. *)
Definition longFlags : Cli.FlagValues :=
  {| Cli.fvAction := u "extract"; Cli.fvInput := u "a.zip"; Cli.fvOutput := [];
     Cli.fvFormat := u "zip"; Cli.fvPassword := [];
     Cli.fvCompression := u "normal"; Cli.fvWorkers := 8;
     Cli.fvVerbose := false; Cli.fvVersion := false; Cli.fvHelp := false;
     Cli.fvH := false; Cli.fvC := false; Cli.fvX := false; Cli.fvT := false;
     Cli.fvV := false; Cli.fvZ := false; Cli.fvJ := true; Cli.fvZ7 := false;
     Cli.fvArgs := [] |}.

Definition openedWith (password : string) (file : Source) : EncryptedReader :=
  match NewEncryptedReader toyCipher file (u password) with
  | Ok er => er
  | Err _ => {| erReader := file; erKey := []; erNonce := [] |}
  end.

End Samples.

(* ===================================================================== *)
(** * Facts about strings and paths *)
(* ===================================================================== *)

Module PathFacts.
Import Str FilePath.

Lemma eqb_eq (a b : chars) : Str.eqb a b = true <-> a = b.
Proof.
  revert b; induction a as [|x a IH]; intros [|y b]; simpl;
    try (split; [discriminate | discriminate]); try tauto.
  rewrite andb_true_iff, Ascii.eqb_eq, IH.
  split; [intros [-> ->]; reflexivity | intros H; inversion H; auto].
Qed.

Lemma eqb_refl (a : chars) : Str.eqb a a = true.
Proof. apply eqb_eq; reflexivity. Qed.

Lemma HasPrefix_spec (s p : chars) :
  HasPrefix s p = true <-> exists r, s = p ++ r.
Proof.
  revert s; induction p as [|c p IH]; intros s.
  - split; [intros _; exists s; reflexivity | intros _; destruct s; reflexivity].
  - destruct s as [|d s]; simpl.
    + split; [discriminate | intros [r H]; discriminate].
    + rewrite andb_true_iff, Ascii.eqb_eq, IH.
      split.
      * intros [-> [r ->]]; exists r; reflexivity.
      * intros [r H]; inversion H; subst; split; [reflexivity | exists r; reflexivity].
Qed.

Lemma split_not_nil (f : ascii -> bool) (s : chars) : split f s <> [].
Proof.
  induction s as [|c s IH]; simpl; [discriminate|].
  destruct (f c); [discriminate|].
  destruct (split f s); [contradiction | discriminate].
Qed.

(** Cutting at a separator cuts the list of pieces. *)
Lemma split_app_sep (f : ascii -> bool) (a b : chars) (c : ascii) :
  f c = true -> split f (a ++ c :: b) = split f a ++ split f b.
Proof.
  intros Hc; induction a as [|x a IH]; simpl.
  - rewrite Hc; reflexivity.
  - rewrite IH. destruct (f x); [reflexivity|].
    pose proof (split_not_nil f a) as Hne.
    destruct (split f a) as [|h t]; [contradiction | reflexivity].
Qed.

Lemma elements_app_sep (f : ascii -> bool) (a b : chars) (c : ascii) :
  f c = true -> elements f (a ++ c :: b) = elements f a ++ elements f b.
Proof.
  intros Hc; unfold elements.
  rewrite (split_app_sep f a b c Hc), filter_app; reflexivity.
Qed.

Lemma sep_is_separator (sep : ascii) : IsPathSeparator sep sep = true.
Proof. unfold IsPathSeparator; rewrite Ascii.eqb_refl; reflexivity. Qed.

Lemma isPrefixOf_spec (a b : list chars) :
  isPrefixOf a b = true <-> exists rest, b = a ++ rest.
Proof.
  revert b; induction a as [|x a IH]; intros b; simpl.
  - split; [intros _; exists b; reflexivity | reflexivity].
  - destruct b as [|y b].
    + split; [discriminate | intros [r H]; discriminate].
    + rewrite andb_true_iff, eqb_eq, IH. split.
      * intros [-> [r ->]]; exists r; reflexivity.
      * intros [r H]; inversion H; subst; split; [reflexivity | exists r; reflexivity].
Qed.

Lemma withinb_spec (sep : ascii) (root dest : chars) :
  withinb sep root dest = true <-> within sep root dest.
Proof. unfold withinb, within; apply isPrefixOf_spec. Qed.

(** The guard of the zip path accepts only destinations inside the
    root. *)
Lemma zipGuard_within (sep : ascii) (absDest absOut : chars) :
  Archive.zipGuard sep absDest absOut = true -> within sep absOut absDest.
Proof.
  unfold Archive.zipGuard; rewrite orb_true_iff, HasPrefix_spec, eqb_eq.
  intros [[r ->] | ->].
  - exists (elements (IsPathSeparator sep) r).
    rewrite <- app_assoc; simpl.
    apply elements_app_sep, sep_is_separator.
  - exists []; rewrite app_nil_r; reflexivity.
Qed.






(** The path functions on the paths of the spec. *)

Example clean_1 : Clean slash (of_string "/tmp/out/../escape.txt") = of_string "/tmp/escape.txt".
Proof. reflexivity. Qed.
Example clean_2 : Clean slash (of_string "a//b/./c/..") = of_string "a/b".
Proof. reflexivity. Qed.
Example clean_3 : Clean slash (of_string "../../x") = of_string "../../x".
Proof. reflexivity. Qed.
Example clean_4 : Clean slash (of_string "/../x") = of_string "/x".
Proof. reflexivity. Qed.
Example clean_5 : Clean slash (of_string "") = of_string ".".
Proof. reflexivity. Qed.
Example clean_6 : Clean slash (of_string "a/../..") = of_string "..".
Proof. reflexivity. Qed.
Example join_1 : Join slash [of_string "."; of_string "hello.txt"] = of_string "hello.txt".
Proof. reflexivity. Qed.
Example join_2 : Join slash [of_string "/tmp/out"; of_string "/etc/passwd"] = of_string "/tmp/out/etc/passwd".
Proof. reflexivity. Qed.
Example join_3 : Join slash [of_string ""; of_string ""] = of_string "".
Proof. reflexivity. Qed.
Example join_4 : Join slash [of_string "."; of_string "../escape.txt"] = of_string "../escape.txt".
Proof. reflexivity. Qed.
Example dir_1 : Dir slash (of_string "/tmp/out/a.txt") = of_string "/tmp/out".
Proof. reflexivity. Qed.
Example dir_2 : Dir slash (of_string "a.txt") = of_string ".".
Proof. reflexivity. Qed.
Example base_1 : Base slash (of_string "/tmp/in/hello.txt") = of_string "hello.txt".
Proof. reflexivity. Qed.
Example base_2 : Base slash (of_string "///") = of_string "/".
Proof. reflexivity. Qed.
Example ext_1 : Ext slash (of_string "/x.d/archive.tar.gz") = of_string ".gz".
Proof. reflexivity. Qed.
Example ext_2 : Ext slash (of_string "/x.d/archive") = of_string "".
Proof. reflexivity. Qed.
Example rel_1 : Rel slash (of_string "in") (of_string "in/a/b.txt") = Some (of_string "a/b.txt").
Proof. reflexivity. Qed.
Example rel_2 : Rel slash (of_string ".") (of_string "a") = Some (of_string "a").
Proof. reflexivity. Qed.
Example rel_3 : Rel slash (of_string "/a/b") (of_string "/a/c/d") = Some (of_string "../c/d").
Proof. reflexivity. Qed.
Example abs_1 : Abs slash (Some (of_string "/home/u")) (of_string "../escape.txt") = Some (of_string "/home/escape.txt").
Proof. reflexivity. Qed.

End PathFacts.

(* ===================================================================== *)
(** * Event discipline of computations *)
(* ===================================================================== *)

Module MFacts.
Import Str World.

(** Every run of [m] only appends events, and each of them satisfies
    [P]. *)
Definition appends {A} (P : Event -> Prop) (m : M A) : Prop :=
  forall tr, exists new, fst (m tr) = tr ++ new /\ Forall P new.

Section Appends.
Context {A B : Type} (P : Event -> Prop).

Lemma appends_ret (a : A) : appends P (ret a).
Proof. intros tr; exists []; simpl; rewrite app_nil_r; auto. Qed.

Lemma appends_fail (e : error) : appends P (@fail A e).
Proof. intros tr; exists []; simpl; rewrite app_nil_r; auto. Qed.

Lemma appends_emit (ev : Event) : P ev -> appends P (emit ev).
Proof. intros H tr; exists [ev]; simpl; auto. Qed.

Lemma appends_call (fsys : FileSystem) (op : FsOp) :
  P (Fs op) -> appends P (call fsys op).
Proof.
  intros H tr; exists [Fs op]; unfold call.
  destruct (fsys tr op); simpl; auto.
Qed.

Lemma appends_bind (m : M A) (k : A -> M B) :
  appends P m -> (forall a, appends P (k a)) -> appends P (bind m k).
Proof.
  intros Hm Hk tr. unfold bind.
  destruct (Hm tr) as [n1 [E1 F1]].
  destruct (m tr) as [tr1 [a|e]]; simpl in E1; subst tr1.
  - destruct (Hk a (tr ++ n1)) as [n2 [E2 F2]].
    exists (n1 ++ n2); rewrite E2, app_assoc; split; [reflexivity|].
    apply Forall_app; auto.
  - exists n1; auto.
Qed.
End Appends.

Lemma appends_when (P : Event -> Prop) (b : bool) (m : M unit) :
  appends P m -> appends P (when b m).
Proof. destruct b; simpl; [auto | intros _; apply appends_ret]. Qed.

Lemma appends_orFail (P : Event -> Prop) (r : option error) :
  appends P (orFail r).
Proof. destruct r; simpl; [apply appends_fail | apply appends_ret]. Qed.

Lemma fsOps_app (a b : Trace) : fsOps (a ++ b) = fsOps a ++ fsOps b.
Proof.
  induction a as [|[op|l|l] a IH]; simpl; rewrite ?IH; reflexivity.
Qed.

End MFacts.

(* ===================================================================== *)
(** * The path guard *)
(* ===================================================================== *)

Module GuardFacts.
Import Str FilePath Models World Archive Spec Samples PathFacts MFacts.

Ltac appends_auto :=
  repeat first
    [ apply appends_bind; [|intros ?]
    | apply appends_when
    | apply appends_orFail
    | apply appends_ret
    | apply appends_fail
    | apply appends_emit; simpl; auto
    | apply appends_call; simpl; auto ].

(** Whatever [extractZipFile] asks of the file system is aimed at the
    destination of the entry. *)
Lemma extractZipFile_appends sep wd fsys f outputPath opts :
  appends (aimedAt sep (Join sep [outputPath; zName f]))
          (extractZipFile sep wd fsys f outputPath opts).
Proof.
  unfold extractZipFile.
  destruct (Abs sep wd (Join sep [outputPath; zName f])); [|appends_auto].
  destruct (Abs sep wd outputPath); [|appends_auto].
  destruct (negb (zipGuard sep c c0)); [appends_auto|].
  destruct (zIsDir f); appends_auto.
Qed.

(** C1 (amended).  Zip extraction, any output root (also "."), any
    working directory, any entry name: either the destination of the
    entry -- the root joined with the name, made absolute -- is the root
    or lies below it by path elements, and then every file-system call
    made for the entry is aimed at that destination or creates the
    directory that holds it; or the entry is refused with an error
    ("illegal file path", unless the working directory is unknown) before
    any file-system call. *)
Theorem zip_extraction_stays_within_root :
  forall sep wd fsys f outputPath opts tr,
    let dest := Join sep [outputPath; zName f] in
    let res := extractZipFile sep wd fsys f outputPath opts tr in
    exists new,
      fst res = tr ++ new
      /\ Forall (aimedAt sep dest) new
      /\ ((exists absDest absOut,
              Abs sep wd dest = Some absDest
              /\ Abs sep wd outputPath = Some absOut
              /\ within sep absOut absDest)
          \/ (new = []
              /\ (snd res = Err (u "illegal file path: " ++ zName f)
                  \/ (wd = None /\ exists e, snd res = Err e)))).
Proof.
  intros sep wd fsys f outputPath opts tr; cbv zeta.
  assert (Hwd : forall p, Abs sep wd p = None -> wd = None).
  { intros p; unfold Abs; destruct (IsAbs sep p); [discriminate|].
    destruct wd; [discriminate | reflexivity]. }
  destruct (extractZipFile_appends sep wd fsys f outputPath opts tr)
    as [new [Hnew Hall]].
  unfold extractZipFile in *.
  set (dest := Join sep [outputPath; zName f]) in *.
  destruct (Abs sep wd dest) as [absDest|] eqn:Ed.
  2:{ exists []; simpl; rewrite app_nil_r; repeat split; auto.
      right; split; [reflexivity|]; right; split; [eauto|eauto]. }
  destruct (Abs sep wd outputPath) as [absOut|] eqn:Eo.
  2:{ exists []; simpl; rewrite app_nil_r; repeat split; auto.
      right; split; [reflexivity|]; right; split; [eauto|eauto]. }
  destruct (zipGuard sep absDest absOut) eqn:Eg; simpl negb in *; cbv iota in *.
  - exists new; repeat split; auto.
    left; exists absDest, absOut; repeat split; auto.
    apply zipGuard_within; exact Eg.
  - exists []; simpl; rewrite app_nil_r; repeat split; auto.
Qed.

(** The traversal entry of the spec is refused by the zip path for the
    roots "/tmp/out" and ".". *)
Example zip_refuses_escape_tmp_out :
  extractZipFile slash home okFs (zipEntry "../escape.txt" (text "x"))
                 (u "/tmp/out") quiet []
  = ([], Err (u "illegal file path: ../escape.txt")).
Proof. vm_compute; reflexivity. Qed.

Example zip_refuses_escape_dot :
  extractZipFile slash home okFs (zipEntry "../escape.txt" (text "x"))
                 (u ".") quiet []
  = ([], Err (u "illegal file path: ../escape.txt")).
Proof. vm_compute; reflexivity. Qed.

(** C1, as stated, fails.  An entry with an absolute name is not
    refused by the zip path: its name is joined below the root and the
    file is written there.  An entry with an inner ".." that stays below
    the root is not refused either.  In the tar.gz path the entry
    "../escape.txt" extracted to the root "." is not refused and is
    written to "../escape.txt". *)
Lemma traversal_claim_counterexample :
  extractZipFile slash home okFs (zipEntry "/etc/passwd" (text "x"))
                 (u "/tmp/out") quiet []
  = ([Fs (MkdirAll (u "/tmp/out/etc") 493);
      Fs (OpenFile (u "/tmp/out/etc/passwd") 420);
      Fs (WriteTo (u "/tmp/out/etc/passwd") (text "x"))], Ok tt)
  /\ snd (extractZipFile slash home okFs (zipEntry "a/../b.txt" (text "x"))
                         (u ".") quiet []) = Ok tt
  /\ extractTarEntry slash okFs (tarFile "../escape.txt" (text "x"))
                     (u ".") quiet []
     = ([Fs (MkdirAll (u "..") 493);
         Fs (OpenFile (u "../escape.txt") 438);
         Fs (WriteTo (u "../escape.txt") (text "x"));
         Fs (Chmod (u "../escape.txt") 420)], Ok tt).
Proof. repeat split; vm_compute; reflexivity. Qed.

(** C5: the guard of the tar.gz path compares strings.  With the output
    root "/out" the entry "../outside/evil.txt", whose destination is
    "/outside/evil.txt", passes it and is written outside the root; the
    zip path refuses the same name.  The check itself comes before the
    first file-system call in both paths. *)
Theorem tar_guard_accepts_sibling_of_root :
  tarGuard slash (u "/outside/evil.txt") (u "/out") = true
  /\ withinb slash (u "/out") (u "/outside/evil.txt") = false
  /\ extractTarEntry slash okFs (tarFile "../outside/evil.txt" (text "x"))
                     (u "/out") quiet []
     = ([Fs (MkdirAll (u "/outside") 493);
         Fs (OpenFile (u "/outside/evil.txt") 438);
         Fs (WriteTo (u "/outside/evil.txt") (text "x"));
         Fs (Chmod (u "/outside/evil.txt") 420)], Ok tt)
  /\ extractZipFile slash home okFs (zipEntry "../outside/evil.txt" (text "x"))
                    (u "/out") quiet []
     = ([], Err (u "illegal file path: ../outside/evil.txt")).
Proof. repeat split; vm_compute; reflexivity. Qed.

End GuardFacts.

(* ===================================================================== *)
(** * The encryption stream *)
(* ===================================================================== *)

Module CryptoFacts.
Import Str FilePath Models World Archive Crypto Codec Samples MFacts.

Lemma write_keeps_nonce c ew p :
  ewNonce (fst (EncryptedWriter_Write c ew p)) = ewNonce ew
  /\ ewSeals (fst (EncryptedWriter_Write c ew p))
     = ewSeals ew ++ [(ewNonce ew, p)].
Proof.
  unfold EncryptedWriter_Write.
  destruct (Sink_Write (ewWriter ew) _) as [w' r]; simpl; auto.
Qed.

(** Every seal made through a writer uses the nonce fixed when the
    writer was made. *)
Lemma writeAll_one_nonce c chunks : forall ew,
  Forall (fun s => fst s = ewNonce ew) (ewSeals ew) ->
  Forall (fun s => fst s = ewNonce ew)
         (ewSeals (fst (EncryptedWriter_WriteAll c ew chunks))).
Proof.
  induction chunks as [|p rest IH]; intros ew H; simpl; [exact H|].
  destruct (write_keeps_nonce c ew p) as [Hn Hs].
  destruct (EncryptedWriter_Write c ew p) as [ew' [n [e|]]]; simpl in *.
  - rewrite Hs; apply Forall_app; split; [exact H | repeat constructor].
  - rewrite <- Hn. apply IH. rewrite Hn, Hs.
    apply Forall_app; split; [exact H | repeat constructor].
Qed.

(** C2 fails on the code: two [Write] calls on one writer make two seal
    operations under one nonce, whatever the cipher, the writer and the
    two chunks. *)
Theorem two_writes_share_the_nonce :
  forall c ew p1 p2,
    let ew2 := fst (EncryptedWriter_Write c
                      (fst (EncryptedWriter_Write c ew p1)) p2) in
    ewSeals ew2 = ewSeals ew ++ [(ewNonce ew, p1); (ewNonce ew, p2)]
    /\ ~ NoDup (map fst (ewSeals ew2)).
Proof.
  intros c ew p1 p2 ew2.
  destruct (write_keeps_nonce c ew p1) as [Hn1 Hs1].
  destruct (write_keeps_nonce c (fst (EncryptedWriter_Write c ew p1)) p2)
    as [Hn2 Hs2].
  assert (E : ewSeals ew2
              = ewSeals ew ++ [(ewNonce ew, p1); (ewNonce ew, p2)]).
  { unfold ew2; rewrite Hs2, Hs1, Hn1, <- app_assoc; reflexivity. }
  split; [exact E|].
  rewrite E, map_app; simpl. intros Hnd.
  apply NoDup_app_remove_l in Hnd.
  inversion Hnd as [|x l Hin _]; subst. apply Hin; left; reflexivity.
Qed.




Lemma fsOps_announce b line tr :
  fsOps (Operator.announce b line tr) = fsOps tr.
Proof.
  unfold Operator.announce; destruct b; [|reflexivity].
  rewrite fsOps_app; simpl; apply app_nil_r.
Qed.



(** With the password used for sealing, the same archive of one sealed
    chunk is read back. *)
Example right_password_reads_hi :
  rrCopied (snd (EncryptedReader_Read toyCipher (openedWith "secret" sealedHi)
                                      bufioSize))
  = text "hi".
Proof. vm_compute; reflexivity. Qed.

End CryptoFacts.

(* ===================================================================== *)
(** * The worker pool of extractZip *)
(* ===================================================================== *)

Module PoolFacts.
Import Str FilePath Models World Archive Pool Spec Samples MFacts GuardFacts.

Lemma removeNth_spec {A} (l : list A) : forall i x,
  nth_error l i = Some x ->
  Permutation l (x :: removeNth i l)
  /\ List.length l = S (List.length (removeNth i l)).
Proof.
  induction l as [|y l IH]; intros [|i] x H; simpl in *; try discriminate.
  - inversion H; subst; split; [apply Permutation_refl | reflexivity].
  - destruct (IH i x H) as [Hp Hl]. split.
    + apply perm_trans with (y :: x :: removeNth i l);
        [apply perm_skip; exact Hp | apply perm_swap].
    + rewrite Hl; reflexivity.
Qed.

Section Run.
Variable sep : ascii.
Variable wd : option chars.
Variable fsys : FileSystem.
Variable outputPath : chars.
Variable opts : ArchiveOptions.

Local Abbreviation step := (Pool.step sep wd fsys outputPath opts).
Local Abbreviation steps := (Pool.steps sep wd fsys outputPath opts).
Local Abbreviation stepWith := (Pool.stepWith sep wd fsys outputPath opts).
Local Abbreviation task := (Pool.task sep wd fsys outputPath opts).
Local Abbreviation Inv := (Pool.Inv sep wd fsys outputPath opts).
Local Abbreviation extract := (extractZipFile sep wd fsys).

Lemma task_spec f ch tr res ch' tr' :
  task f ch tr = (res, ch', tr') ->
  snd (extract f outputPath opts tr) = res
  /\ (exists new, tr' = tr ++ new)
  /\ ch' = match res with Ok _ => ch | Err e => trySend ch e end
  /\ (forall e, res = Err e -> exists tr1, tr' = tr1 ++ [stderrLine f e]).
Proof.
  unfold Pool.task.
  destruct (extractZipFile_appends sep wd fsys f outputPath opts tr)
    as [new [Hnew _]].
  destruct (extract f outputPath opts tr) as [t [[]|e]]; simpl in *;
    intros H; inversion H; subst; clear H.
  - repeat split; [exists new; reflexivity | discriminate].
  - repeat split.
    + exists (new ++ [stderrLine f e]); rewrite app_assoc; reflexivity.
    + intros e0 He; inversion He; subst; eexists; reflexivity.
Qed.

Lemma firstError_app rs f res :
  firstError (rs ++ [(f, res)])
  = match firstError rs with
    | Some e => Some e
    | None => match res with Ok _ => None | Err e => Some e end
    end.
Proof.
  induction rs as [|[g [[]|e]] rs IH]; simpl; auto.
Qed.

Lemma firstError_none rs :
  firstError rs = None <-> forall f r, In (f, r) rs -> r = Ok tt.
Proof.
  induction rs as [|[g [[]|e]] rs IH]; simpl.
  - split; [intros _ f r [] | reflexivity].
  - rewrite IH; split.
    + intros H f r [E | Hin]; [inversion E; reflexivity | eauto].
    + intros H f r Hin; eauto.
  - split; [discriminate|].
    intros H; specialize (H g (Err e) (or_introl eq_refl)); discriminate.
Qed.

Lemma firstError_some rs e :
  firstError rs = Some e -> exists f, In (f, Err e) rs.
Proof.
  induction rs as [|[g [[]|e0]] rs IH]; simpl; [discriminate| |].
  - intros H; destruct (IH H) as [f Hf]; exists f; auto.
  - intros H; inversion H; subst; exists g; auto.
Qed.

Lemma inv_init files tr0 : Inv files tr0 (init files tr0).
Proof.
  constructor; simpl.
  - reflexivity.
  - reflexivity.
  - left; reflexivity.
  - apply Permutation_refl.
  - reflexivity.
  - exists []; symmetry; apply app_nil_r.
  - intros f e [].
  - intros f r [].
Qed.

Lemma inv_step files tr0 s s' :
  Inv files tr0 s -> step s s' -> Inv files tr0 s'.
Proof.
  intros [Hsem Hwg Hcap Hall Herr [new0 Htr] Hlog Hran] [[|i] Hstep];
    unfold Pool.stepWith in Hstep.
  - destruct (pending s) as [|f rest] eqn:Ep; [discriminate|].
    destruct (Z.ltb (Z.of_nat (sem s)) (Workers opts)) eqn:Elt; [|discriminate].
    inversion Hstep; subst; clear Hstep.
    apply Z.ltb_lt in Elt.
    constructor; simpl.
    + rewrite length_app; simpl; lia.
    + rewrite length_app; simpl; lia.
    + right; lia.
    + rewrite <- app_assoc; simpl; exact Hall.
    + exact Herr.
    + exists new0; exact Htr.
    + exact Hlog.
    + exact Hran.
  - destruct (nth_error (running s) i) as [f|] eqn:En; [|discriminate].
    destruct (task f (errChan s) (trace s)) as [[res ch] tr] eqn:Et.
    inversion Hstep; subst; clear Hstep.
    destruct (task_spec _ _ _ _ _ _ Et) as [Hres [[new Hnew] [Hch Hline]]].
    destruct (removeNth_spec _ _ _ En) as [Hperm Hlen].
    constructor; simpl.
    + lia.
    + lia.
    + destruct Hcap as [H0 | Hle]; [left; lia | right; lia].
    + rewrite map_app; simpl. rewrite <- app_assoc; simpl.
      eapply perm_trans; [|exact Hall].
      apply Permutation_app_head.
      change (f :: removeNth i (running s) ++ pending s)
        with ((f :: removeNth i (running s)) ++ pending s).
      apply Permutation_app_tail, Permutation_sym, Hperm.
    + rewrite firstError_app, <- Herr, Hch.
      destruct res as [[]|e]; destruct (errChan s); reflexivity.
    + exists (new0 ++ new); rewrite Hnew, Htr, app_assoc; reflexivity.
    + intros g e Hin. apply in_app_or in Hin as [Hin | [E | []]].
      * rewrite Hnew; apply in_or_app; left; apply Hlog; exact Hin.
      * injection E as Eg Er.
        destruct (Hline e Er) as [tr1 Ht].
        rewrite Ht, <- Eg.
        apply in_or_app; right; left; reflexivity.
    + intros g r Hin. apply in_app_or in Hin as [Hin | [E | []]].
      * apply Hran; exact Hin.
      * injection E as Eg Er.
        exists (trace s); rewrite <- Eg, Hres; exact Er.
Qed.

Lemma inv_steps files tr0 s :
  steps (init files tr0) s -> Inv files tr0 s.
Proof.
  intros H. remember (init files tr0) as s0 eqn:E.
  induction H as [s | s1 s2 s3 H12 IH H23]; subst.
  - apply inv_init.
  - eapply inv_step; [apply IH; reflexivity | exact H23].
Qed.

Lemma steps_trans s1 s2 s3 : steps s1 s2 -> steps s2 s3 -> steps s1 s3.
Proof.
  intros H12 H23; induction H23; [exact H12|].
  eapply steps_step; [apply IHsteps; exact H12 | exact H].
Qed.

Lemma run_steps sched fuel : forall s, steps s (run sep wd fsys outputPath opts sched fuel s).
Proof.
  induction fuel as [|fuel IH]; intros s; simpl; [apply steps_refl|].
  destruct (stepWith (sched s) s) as [s'|] eqn:E; [|apply steps_refl].
  eapply steps_trans; [|apply IH].
  eapply steps_step; [apply steps_refl | exists (sched s); exact E].
Qed.

(** A step uses up the measure. *)
Lemma step_measure files tr0 s s' :
  Inv files tr0 s -> step s s' -> measure s' < measure s.
Proof.
  intros HI [[|i] Hstep]; unfold Pool.stepWith, measure in *.
  - destruct (pending s) as [|f rest]; [discriminate|].
    destruct (Z.ltb _ _); [|discriminate].
    inversion Hstep; subst; simpl. rewrite length_app; simpl; lia.
  - destruct (nth_error (running s) i) as [f|] eqn:En; [|discriminate].
    destruct (task f (errChan s) (trace s)) as [[res ch] tr].
    inversion Hstep; subst; simpl.
    destruct (removeNth_spec _ _ _ En) as [_ Hlen]. lia.
Qed.

(** With at least one worker a run that is not over can go on. *)
Lemma progress files tr0 s :
  (1 <= Workers opts)%Z -> Inv files tr0 s ->
  finished s \/ exists s', step s s'.
Proof.
  intros Hw HI. destruct HI as [Hsem Hwg Hcap _ _ _ _ _].
  assert (Hfin : forall g l, running s = g :: l -> exists s', step s s').
  { intros g l Er.
    destruct (task g (errChan s) (trace s)) as [[res ch] tr] eqn:Et.
    eexists; exists (Finish 0); unfold Pool.stepWith.
    rewrite Er; simpl; rewrite Et; reflexivity. }
  destruct (pending s) as [|f rest] eqn:Ep.
  - destruct (running s) as [|g l] eqn:Er.
    + left; split; [exact Ep | rewrite Hwg; reflexivity].
    + right; eapply Hfin; reflexivity.
  - right. destruct (Z.ltb (Z.of_nat (sem s)) (Workers opts)) eqn:Elt.
    + eexists; exists Spawn; unfold Pool.stepWith.
      rewrite Ep, Elt; reflexivity.
    + apply Z.ltb_ge in Elt.
      destruct (running s) as [|g l] eqn:Er; [simpl in Hsem; lia|].
      eapply Hfin; reflexivity.
Qed.

(** With at least one worker every run can be brought to its end. *)
Lemma reaches_finished files tr0 :
  (1 <= Workers opts)%Z ->
  forall n s, measure s <= n -> steps (init files tr0) s ->
              exists s', steps s s' /\ finished s'.
Proof.
  intros Hw; induction n as [|n IH]; intros s Hm Hs;
    pose proof (inv_steps _ _ _ Hs) as HI;
    destruct (progress _ _ _ Hw HI) as [Hfin | [s' Hstep]].
  - exists s; split; [apply steps_refl | exact Hfin].
  - pose proof (step_measure _ _ _ _ HI Hstep); lia.
  - exists s; split; [apply steps_refl | exact Hfin].
  - pose proof (step_measure _ _ _ _ HI Hstep) as Hlt.
    destruct (IH s') as [s'' [Hs'' Hf]]; [lia | |].
    + eapply steps_step; [exact Hs | exact Hstep].
    + exists s''; split; [|exact Hf].
      eapply steps_trans; [|exact Hs''].
      eapply steps_step; [apply steps_refl | exact Hstep].
Qed.

End Run.

Lemma tarLoop_app sep fsys outputPath opts before :
  forall rest ending tr trb,
    tarLoop sep fsys before None outputPath opts tr = (trb, Ok tt) ->
    tarLoop sep fsys (before ++ rest) ending outputPath opts tr
    = tarLoop sep fsys rest ending outputPath opts trb.
Proof.
  induction before as [|a before IH]; intros rest ending tr trb; simpl.
  - intros H; inversion H; reflexivity.
  - unfold bind.
    destruct (extractTarEntry sep fsys a outputPath opts tr) as [t [[]|e]].
    + apply IH.
    + discriminate.
Qed.

(** C10.  With [Workers = k], [k >= 1], in every state of every run of
    [extractZip] at most [k] goroutines have been started and have not
    yet returned: they are as many as the tokens in the semaphore
    channel, whose capacity is [k]. *)
Theorem at_most_k_tasks_in_flight :
  forall sep wd fsys outputPath opts files tr0 s,
    (1 <= Workers opts)%Z ->
    Pool.steps sep wd fsys outputPath opts (init files tr0) s ->
    (Z.of_nat (List.length (running s)) <= Workers opts)%Z
    /\ sem s = List.length (running s).
Proof.
  intros sep wd fsys outputPath opts files tr0 s Hw Hs.
  destruct (inv_steps _ _ _ _ _ _ _ _ Hs) as [Hsem _ Hcap _ _ _ _ _].
  split; [|exact Hsem].
  rewrite <- Hsem. destruct Hcap as [H0 | Hle]; [rewrite H0; simpl; lia | exact Hle].
Qed.

Lemma at_most_k_tasks_in_flight_witness :
  (Z.of_nat (List.length (running (sampleRun 2))) <= 2)%Z
  /\ sem (sampleRun 2) = List.length (running (sampleRun 2)).
Proof.
  apply (at_most_k_tasks_in_flight slash home okFs (u "/tmp/out") twoWorkers
           threeFiles [] (sampleRun 2)).
  - simpl; lia.
  - apply run_steps.
Defined.

(** C7.  Zip: with at least one worker every run of [extractZip] comes to
    its end, and at its end every entry of the archive has had its call
    of [extractZipFile], once; each failed call has its line on standard
    error, written in the step in which the call returned; [extractZip]
    returns an error exactly when some call failed, and the error is that
    of one of the failed calls.  Tar.gz: when the entries before [e] are
    extracted without error and [e] fails, [extractTarGz] returns the
    error of [e] with the events up to that failure, whatever entries
    follow [e]. *)
Theorem extraction_error_policy :
  forall sep wd fsys outputPath opts,
    (1 <= Workers opts)%Z ->
    (forall files tr0,
        (exists s, Pool.steps sep wd fsys outputPath opts (init files tr0) s
                   /\ finished s)
        /\ (forall s,
              Pool.steps sep wd fsys outputPath opts (init files tr0) s ->
              finished s ->
              Permutation (map fst (returned s)) files
              /\ (forall f r, In (f, r) (returned s) ->
                    exists tr,
                      snd (extractZipFile sep wd fsys f outputPath opts tr) = r)
              /\ (forall f e, In (f, Err e) (returned s) ->
                    In (stderrLine f e) (trace s))
              /\ (outcome s = Ok tt <->
                  forall f r, In (f, r) (returned s) -> r = Ok tt)
              /\ (forall e, outcome s = Err e ->
                    exists f, In (f, Err e) (returned s))))
    /\ (forall s i f e s',
          nth_error (running s) i = Some f ->
          snd (extractZipFile sep wd fsys f outputPath opts (trace s)) = Err e ->
          Pool.stepWith sep wd fsys outputPath opts (Finish i) s = Some s' ->
          exists tr1, trace s' = tr1 ++ [stderrLine f e])
    /\ (forall before e rest ending tr trb tre err,
          tarLoop sep fsys before None outputPath opts tr = (trb, Ok tt) ->
          extractTarEntry sep fsys e outputPath opts trb = (tre, Err err) ->
          extractTarGz sep fsys
            (Ok {| tsEntries := before ++ e :: rest; tsEnd := ending |})
            outputPath opts tr
          = (tre, Err err)).
Proof.
  intros sep wd fsys outputPath opts Hw. split; [|split].
  - intros files tr0. split.
    + destruct (reaches_finished sep wd fsys outputPath opts files tr0 Hw
                  _ (init files tr0) (le_n _) (steps_refl _ _ _ _ _ _))
        as [s [Hs Hf]].
      exists s; auto.
    + intros s Hs [Hp Hwg].
      destruct (inv_steps _ _ _ _ _ _ _ _ Hs)
        as [Hsem Hwg' _ Hall Herr _ Hlog Hran].
      assert (Hr : running s = []).
      { destruct (running s); [reflexivity | simpl in Hwg'; lia]. }
      rewrite Hp, Hr in Hall; simpl in Hall; rewrite app_nil_r in Hall.
      split; [exact Hall|]. split; [exact Hran|]. split; [exact Hlog|].
      unfold outcome; rewrite Herr. split.
      * rewrite <- firstError_none.
        destruct (firstError (returned s)); split; try discriminate; auto.
      * intros e He. apply firstError_some.
        destruct (firstError (returned s)); inversion He; reflexivity.
  - intros s i f e s' Hn He Hstep. unfold Pool.stepWith in Hstep.
    rewrite Hn in Hstep.
    destruct (Pool.task sep wd fsys outputPath opts f (errChan s) (trace s))
      as [[res ch] tr] eqn:Et.
    inversion Hstep; subst; simpl.
    destruct (task_spec _ _ _ _ _ _ _ _ _ _ _ Et) as [Hres [_ [_ Hline]]].
    apply Hline; rewrite <- Hres; exact He.
  - intros before e rest ending tr trb tre err Hb He. simpl.
    rewrite (tarLoop_app _ _ _ _ _ _ _ _ _ Hb). simpl.
    unfold bind; rewrite He; reflexivity.
Qed.

Lemma extraction_error_policy_witness :
  Permutation (map fst (returned (sampleRun 6))) threeFiles
  /\ In (stderrLine (zipEntry "../escape.txt" (text "E"))
                    (u "illegal file path: ../escape.txt"))
        (trace (sampleRun 6))
  /\ extractTarGz slash okFs
       (Ok {| tsEntries := [tarFile "a.txt" (text "A")]
                           ++ tarFile "../../etc/x" (text "E")
                           :: [tarFile "b.txt" (text "B")];
              tsEnd := None |})
       (u "/tmp/out") twoWorkers []
     = ([Fs (MkdirAll (u "/tmp/out") 493);
         Fs (OpenFile (u "/tmp/out/a.txt") 438);
         Fs (WriteTo (u "/tmp/out/a.txt") (text "A"));
         Fs (Chmod (u "/tmp/out/a.txt") 420)],
        Err (u "illegal file path: ../../etc/x")).
Proof.
  destruct (extraction_error_policy slash home okFs (u "/tmp/out") twoWorkers)
    as [Hzip [_ Htar]]; [simpl; lia|].
  destruct (Hzip threeFiles []) as [_ Hend].
  destruct (Hend (sampleRun 6)) as [Hperm [_ [Hlog _]]].
  - apply run_steps.
  - split; reflexivity.
  - split; [exact Hperm|]. split.
    + apply Hlog. vm_compute. right; left; reflexivity.
    + apply Htar with (trb := [Fs (MkdirAll (u "/tmp/out") 493);
                               Fs (OpenFile (u "/tmp/out/a.txt") 438);
                               Fs (WriteTo (u "/tmp/out/a.txt") (text "A"));
                               Fs (Chmod (u "/tmp/out/a.txt") 420)]);
        vm_compute; reflexivity.
Defined.

(** The sample run, step by step: two goroutines are started, the third
    file waits for a slot; the file that escapes the root is refused and
    the two others are written. *)
Example sample_run_end :
  fsOps (trace (sampleRun 6))
  = [MkdirAll (u "/tmp/out") 493;
     OpenFile (u "/tmp/out/a.txt") 420;
     WriteTo (u "/tmp/out/a.txt") (text "A");
     MkdirAll (u "/tmp/out") 493;
     OpenFile (u "/tmp/out/b.txt") 420;
     WriteTo (u "/tmp/out/b.txt") (text "B")]
  /\ outcome (sampleRun 6) = Err (u "illegal file path: ../escape.txt")
  /\ List.length (running (sampleRun 2)) = 2
  /\ Pool.stepWith slash home okFs (u "/tmp/out") twoWorkers Spawn (sampleRun 2)
     = None.
Proof. repeat split; vm_compute; reflexivity. Qed.

End PoolFacts.

(* ===================================================================== *)
(** * Operator.Extract and the password *)
(* ===================================================================== *)

Module OperatorFacts.
Import Str FilePath Models World Archive Crypto Pool Codec Samples.
Import MFacts PoolFacts.

Lemma ReadFull_ok s n :
  n <= List.length (srcData s) ->
  ReadFull s n = Ok (firstn n (srcData s),
                     {| srcData := skipn n (srcData s); srcEnd := srcEnd s |}).
Proof.
  intros H; unfold ReadFull.
  apply Nat.leb_le in H; rewrite H; reflexivity.
Qed.

Lemma ReadFull_short s n :
  List.length (srcData s) < n -> exists e, ReadFull s n = Err e.
Proof.
  intros H; unfold ReadFull.
  apply Nat.leb_gt in H; rewrite H.
  destruct (srcData s), (srcEnd s); eexists; reflexivity.
Qed.

(** Whether [NewEncryptedReader] succeeds depends on the length of the
    file, not on the password. *)
Lemma NewEncryptedReader_outcome c file :
  (headerSize <= List.length (srcData file) ->
     forall password, exists er, NewEncryptedReader c file password = Ok er)
  /\ (List.length (srcData file) < headerSize ->
     exists e, forall password, NewEncryptedReader c file password = Err e).
Proof.
  unfold headerSize, NewEncryptedReader, SaltSize, NonceSize. split.
  - intros H password.
    rewrite ReadFull_ok by lia.
    rewrite ReadFull_ok by (cbn [srcData]; rewrite length_skipn; lia).
    eexists; reflexivity.
  - intros H.
    destruct (Nat.le_gt_cases 32 (List.length (srcData file))) as [H32 | H32].
    + rewrite ReadFull_ok by lia.
      destruct (ReadFull_short
                  {| srcData := skipn 32 (srcData file); srcEnd := srcEnd file |} 12)
        as [e He]; [cbn [srcData]; rewrite length_skipn; lia|].
      exists e; intros password; rewrite He; reflexivity.
    + destruct (ReadFull_short file 32 H32) as [e He].
      exists e; intros password; rewrite He; reflexivity.
Qed.

Lemma stepWith_options sep wd fsys outputPath o1 o2 c s :
  Workers o1 = Workers o2 -> Verbose o1 = Verbose o2 ->
  Pool.stepWith sep wd fsys outputPath o1 c s
  = Pool.stepWith sep wd fsys outputPath o2 c s.
Proof.
  intros Hw Hv.
  unfold Pool.stepWith, Pool.task, extractZipFile.
  rewrite Hw, Hv; reflexivity.
Qed.

Lemma steps_options sep wd fsys outputPath o1 o2 s s' :
  Workers o1 = Workers o2 -> Verbose o1 = Verbose o2 ->
  Pool.steps sep wd fsys outputPath o1 s s' ->
  Pool.steps sep wd fsys outputPath o2 s s'.
Proof.
  intros Hw Hv H; induction H as [s | s1 s2 s3 H12 IH [c H23]].
  - apply steps_refl.
  - eapply steps_step; [exact IH|].
    exists c; rewrite <- H23; symmetry; apply stepWith_options; assumption.
Qed.

Lemma extractZip_returns_options sep wd fsys outputPath o1 o2 opened tr0 tr r :
  Workers o1 = Workers o2 -> Verbose o1 = Verbose o2 ->
  extractZip_returns sep wd fsys outputPath o1 opened tr0 tr r ->
  extractZip_returns sep wd fsys outputPath o2 opened tr0 tr r.
Proof.
  intros Hw Hv; unfold extractZip_returns.
  destruct opened as [files|e]; [|auto].
  intros [H0 [s [Hs H]]]; split; [rewrite <- Hw; exact H0|].
  exists s; split; [|exact H].
  eapply steps_options; eauto.
Qed.

(** Without files there is nothing to start. *)
Lemma steps_no_files sep wd fsys outputPath opts tr0 s :
  Pool.steps sep wd fsys outputPath opts (init [] tr0) s -> s = init [] tr0.
Proof.
  intros H; remember (init [] tr0) as s0 eqn:E.
  induction H as [s | s1 s2 s3 H12 IH [c H23]]; [reflexivity|].
  rewrite (IH E) in H23; subst s1.
  destruct c as [|i]; simpl in H23; [discriminate|].
  destruct i; discriminate.
Qed.

(** An archive without entries: [extractZip] adds no event. *)
Lemma extractZip_returns_empty sep wd fsys outputPath opts opened tr0 tr r :
  (forall files, opened = Ok files -> files = []) ->
  extractZip_returns sep wd fsys outputPath opts opened tr0 tr r -> tr = tr0.
Proof.
  intros He; unfold extractZip_returns.
  destruct opened as [files|e]; [|tauto].
  rewrite (He files eq_refl).
  intros [_ [s [Hs [_ [Ht _]]]]].
  rewrite (steps_no_files _ _ _ _ _ _ _ Hs) in Ht; exact Ht.
Qed.

Lemma extractZip_returns_empty_exists sep wd fsys outputPath opts opened tr0 :
  (0 <= Workers opts)%Z ->
  (forall files, opened = Ok files -> files = []) ->
  exists r, extractZip_returns sep wd fsys outputPath opts opened tr0 tr0 r.
Proof.
  intros Hw He; unfold extractZip_returns.
  destruct opened as [files|e]; [|eexists; split; reflexivity].
  rewrite (He files eq_refl).
  exists (Ok tt); split; [exact Hw|]. exists (init [] tr0).
  repeat split; apply steps_refl.
Qed.

(** C6.  An archive that is not named ".gz" is extracted as zip.  With
    at least one worker, take two runs of [Extract] on it that differ in the password only (either
    may be empty).  Whatever events one run can produce -- entries
    decoded, directories made, files and contents written, lines printed
    -- the other can produce too: the zip path reads the archive by its
    path, not through the decrypting reader.  The value returned is the
    same as well when the file is long enough for the salt and nonce that
    [NewEncryptedReader] reads, or when both passwords are empty or both
    are not.  (A file too short for salt and nonce holds no zip entry:
    this is the hypothesis on the zip reader.) *)
Theorem zip_extract_ignores_password :
  forall env opts p q inputPath outputPath tr0 tr r,
    (1 <= Workers opts)%Z ->
    Str.eqb (ToLower (Ext (Operator.envSep env) inputPath)) (u ".gz") = false ->
    (forall file files,
        Operator.osOpen env inputPath = Ok file ->
        Operator.zipOpenReader env inputPath = Ok files ->
        List.length (srcData file) < headerSize -> files = []) ->
    Operator.Extract_returns env (setPassword opts p) inputPath outputPath
                             tr0 tr r ->
    exists r',
      Operator.Extract_returns env (setPassword opts q) inputPath outputPath
                               tr0 tr r'
      /\ ((forall file, Operator.osOpen env inputPath = Ok file ->
                        headerSize <= List.length (srcData file)) -> r' = r)
      /\ (isEmpty p = isEmpty q -> r' = r).
Proof.
  intros env opts p q inputPath outputPath tr0 tr r Hw Hext Hzip Hrun.
  unfold Operator.Extract_returns, Operator.Extract_route in *.
  cbn [setPassword Password Verbose] in *.
  rewrite Hext in *.
  set (tr1 := Operator.announce (Verbose opts)
                (u "Extracting " ++ inputPath ++ u " to " ++ outputPath ++ u "...")
                tr0) in *.
  assert (Hsame : forall r0,
             extractZip_returns (Operator.envSep env) (Operator.envWd env)
               (Operator.envFs env) outputPath (setPassword opts p)
               (Operator.zipOpenReader env inputPath) tr1 tr r0 ->
             extractZip_returns (Operator.envSep env) (Operator.envWd env)
               (Operator.envFs env) outputPath (setPassword opts q)
               (Operator.zipOpenReader env inputPath) tr1 tr r0).
  { intros r0; apply extractZip_returns_options; reflexivity. }
  destruct (Operator.osOpen env inputPath) as [file|e0] eqn:Eo.
  2:{ exists r; split; [exact Hrun | split; intros _; reflexivity]. }
  destruct (NewEncryptedReader_outcome (Operator.envCipher env) file)
    as [Hok Hshort].
  destruct (Nat.le_gt_cases headerSize (List.length (srcData file)))
    as [Hlen | Hlen].
  - (* salt and nonce can be read *)
    assert (Hp : extractZip_returns (Operator.envSep env) (Operator.envWd env)
                   (Operator.envFs env) outputPath (setPassword opts p)
                   (Operator.zipOpenReader env inputPath) tr1 tr r).
    { destruct (isEmpty p); simpl in Hrun; [exact Hrun|].
      destruct (Hok Hlen p) as [er Her]; rewrite Her in Hrun; exact Hrun. }
    exists r. split; [|split; intros _; reflexivity].
    destruct (isEmpty q); simpl; [apply Hsame; exact Hp|].
    destruct (Hok Hlen q) as [er Her]; rewrite Her; apply Hsame; exact Hp.
  - (* the file is too short for salt and nonce *)
    destruct (Hshort Hlen) as [e He].
    assert (Hnone : forall files,
               Operator.zipOpenReader env inputPath = Ok files -> files = []).
    { intros files Hf; eapply Hzip; eauto. }
    destruct (isEmpty p) eqn:Ep, (isEmpty q) eqn:Eq;
      cbn [negb] in Hrun |- *;
      try rewrite (He p) in Hrun; try rewrite (He q);
      cbv beta iota in Hrun |- *.
    + exists r; split; [apply Hsame; exact Hrun | split; intros _; reflexivity].
    + pose proof (extractZip_returns_empty _ _ _ _ _ _ _ _ _ Hnone Hrun) as Ht.
      eexists; split; [split; [exact Ht | reflexivity]|].
      split; [|intros Hd; discriminate Hd].
      intros Hall; specialize (Hall file eq_refl); lia.
    + destruct Hrun as [Ht Hr].
      destruct (extractZip_returns_empty_exists
                  (Operator.envSep env) (Operator.envWd env)
                  (Operator.envFs env) outputPath (setPassword opts q)
                  _ tr1 ltac:(simpl; lia) Hnone) as [r' Hr'].
      exists r'; rewrite Ht; split; [exact Hr'|].
      split; [|intros Hd; discriminate Hd].
      intros Hall; specialize (Hall file eq_refl); lia.
    + exists r; split; [exact Hrun | split; intros _; reflexivity].
Qed.

Lemma Extract_returns_zip env opts inputPath outputPath tr0 tr r :
  Operator.Extract_route env opts inputPath = Operator.ViaZip ->
  extractZip_returns (Operator.envSep env) (Operator.envWd env)
    (Operator.envFs env) outputPath opts
    (Operator.zipOpenReader env inputPath)
    (Operator.announce (Verbose opts)
       (u "Extracting " ++ inputPath ++ u " to " ++ outputPath ++ u "...") tr0)
    tr r ->
  Operator.Extract_returns env opts inputPath outputPath tr0 tr r.
Proof.
  intros Hroute H; unfold Operator.Extract_returns; rewrite Hroute; exact H.
Qed.

Lemma zip_extract_ignores_password_witness :
  exists r',
    Operator.Extract_returns (toyEnv sixtyBytes threeFiles)
      (setPassword twoWorkers (u "secret")) (u "photos.zip") (u "/tmp/out")
      [] (trace (sampleRun 6)) r'
    /\ ((forall file,
           Operator.osOpen (toyEnv sixtyBytes threeFiles) (u "photos.zip")
           = Ok file ->
           headerSize <= List.length (srcData file)) ->
        r' = outcome (sampleRun 6))
    /\ (isEmpty (@nil ascii) = isEmpty (u "secret") ->
        r' = outcome (sampleRun 6)).
Proof.
  apply (zip_extract_ignores_password (toyEnv sixtyBytes threeFiles)
           twoWorkers [] (u "secret") (u "photos.zip") (u "/tmp/out")
           [] (trace (sampleRun 6)) (outcome (sampleRun 6))).
  - simpl; lia.
  - vm_compute; reflexivity.
  - intros file files Hf _ Hlen. simpl in Hf; inversion Hf; subst file.
    vm_compute in Hlen; lia.
  - apply Extract_returns_zip; [vm_compute; reflexivity|].
    split; [simpl; lia|].
    exists (sampleRun 6). split; [apply run_steps|].
    split; [split; reflexivity|]. split; reflexivity.
Defined.

End OperatorFacts.

(* ===================================================================== *)
(** * Compression, listing, round trip *)
(* ===================================================================== *)

Module CodecFacts.
Import Str FilePath Models World Archive Crypto Pool Codec Samples.
Import PathFacts MFacts.


Lemma printAll_spec lines : forall tr,
  printAll lines tr = (tr ++ map Stdout lines, Ok tt).
Proof.
  induction lines as [|l lines IH]; intros tr; simpl.
  - unfold ret; rewrite app_nil_r; reflexivity.
  - unfold bind, emit; rewrite IH, <- app_assoc; reflexivity.
Qed.



(** Scenarios 1 and 2 of the spec: a single file, and a tree on a host
    whose separator is the backslash. *)
Example compress_single_file :
  map asZipFile (fst (compressZip slash (u "docs/hello.txt")
                                  (File 420 (text "hello"))))
  = [{| zName := u "hello.txt"; zIsDir := false; zMode := 420;
        zUncompressedSize64 := 5; zOpenErr := None;
        zData := text "hello"; zReadErr := None |}].
Proof. vm_compute; reflexivity. Qed.

Example compress_tree_on_backslash_host :
  map wName (fst (compressZip "\"%char (u "in") helloTree))
  = [u "./"; u "a/"; u "a/b.txt"]
  /\ map wName (fst (compressTarGz "\"%char (u "in") helloTree))
     = [u "."; u "a"; u "a/b.txt"].
Proof. split; vm_compute; reflexivity. Qed.


(** C3 fails on the code.  The tar.gz archive of the single file
    "hello.txt" holds the entry "hello.txt"; extracted into ".", the
    output root the command line uses when none is given, the entry is
    refused by the guard and nothing is written.  The archive of a tree
    is given up at its first entry below the root.  The zip path extracts
    the same tree into ".". *)
Theorem targz_roundtrip_fails_in_current_directory :
  let single := fst (compressTarGz slash (u "docs/hello.txt")
                                   (File 420 (text "hello"))) in
  let tree := fst (compressTarGz slash (u "in") helloTree) in
  let zipped := fst (compressZip slash (u "in") helloTree) in
  single = [{| wName := u "hello.txt"; wIsDir := false; wMode := 420;
               wData := text "hello" |}]
  /\ extractTarGz slash okFs
       (Ok {| tsEntries := map asTarEntry single; tsEnd := None |})
       (u ".") quiet []
     = ([], Err (u "illegal file path: hello.txt"))
  /\ extractTarGz slash okFs
       (Ok {| tsEntries := map asTarEntry tree; tsEnd := None |})
       (u ".") quiet []
     = ([Fs (MkdirAll (u ".") 493)], Err (u "illegal file path: a"))
  /\ (let s := Pool.run slash home okFs (u ".") quiet (Pool.eager quiet) 6
                        (Pool.init (map asZipFile zipped) []) in
      finished s
      /\ outcome s = Ok tt
      /\ fsOps (trace s)
         = [MkdirAll (u ".") 493; MkdirAll (u "a") 493;
            MkdirAll (u "a") 493; OpenFile (u "a/b.txt") 420;
            WriteTo (u "a/b.txt") (text "hi")]).
Proof. repeat split; vm_compute; reflexivity. Qed.

End CodecFacts.

(* ===================================================================== *)
(** * The command line *)
(* ===================================================================== *)

Module CliFacts.
Import Str FilePath Models World Archive Crypto Codec Naming Cli Main Samples.
Import PathFacts.

Lemma expandArg_short (a : chars) :
  List.length a <= 2 -> expandArg a = [a].
Proof.
  intros H; unfold expandArg.
  replace (Nat.ltb 2 (List.length a)) with false
    by (symmetry; apply Nat.ltb_ge; exact H).
  rewrite andb_false_r; reflexivity.
Qed.

(** What [expandArg] yields is not expanded again. *)
Lemma expandArg_fixed (a b : chars) :
  In b (expandArg a) -> expandArg b = [b].
Proof.
  unfold expandArg at 1.
  destruct (HasPrefix a (u "-") && negb (HasPrefix a (u "--"))
            && Nat.ltb 2 (List.length a)) eqn:E1.
  - destruct (forallb isFlagLetter (skipn 1 a)
              && ContainsAny (skipn 1 a) (u "cxt")) eqn:E2.
    + intros Hin. apply in_map_iff in Hin as [ch [<- _]].
      apply expandArg_short; simpl; lia.
    + intros [<- | []]. unfold expandArg; rewrite E1, E2; reflexivity.
  - intros [<- | []]. unfold expandArg; rewrite E1; reflexivity.
Qed.

Lemma expandArg_not_nil (a : chars) : 1 <= List.length (expandArg a).
Proof.
  unfold expandArg.
  destruct (HasPrefix a (u "-") && negb (HasPrefix a (u "--"))
            && Nat.ltb 2 (List.length a)) eqn:E1; [|simpl; lia].
  destruct (forallb isFlagLetter (skipn 1 a)
            && ContainsAny (skipn 1 a) (u "cxt")); [|simpl; lia].
  apply andb_true_iff in E1 as [_ E1]. apply Nat.ltb_lt in E1.
  rewrite length_map, length_skipn; lia.
Qed.

Lemma process_app (l1 l2 : list chars) :
  processUnixStyleFlags (l1 ++ l2)
  = processUnixStyleFlags l1 ++ processUnixStyleFlags l2.
Proof.
  induction l1 as [|a l1 IH]; simpl; [reflexivity|].
  rewrite IH, app_assoc; reflexivity.
Qed.

Lemma process_fixed (l : list chars) :
  (forall b, In b l -> expandArg b = [b]) -> processUnixStyleFlags l = l.
Proof.
  induction l as [|a l IH]; intros H; simpl; [reflexivity|].
  rewrite (H a (or_introl eq_refl)), IH; [reflexivity|].
  intros b Hb; apply H; right; exact Hb.
Qed.

Lemma process_in (args : list chars) (b : chars) :
  In b (processUnixStyleFlags args) -> exists a, In a args /\ In b (expandArg a).
Proof.
  induction args as [|a args IH]; simpl; [intros []|].
  intros H; apply in_app_or in H as [H | H].
  - exists a; auto.
  - destruct (IH H) as [a' [Ha Hb]]; exists a'; auto.
Qed.

(** X1.  The expansion of combined flags is idempotent -- its result holds
    no argument that would be expanded again -- and it never drops an
    argument. *)
Theorem processUnixStyleFlags_idempotent :
  forall args,
    processUnixStyleFlags (processUnixStyleFlags args)
    = processUnixStyleFlags args
    /\ List.length args <= List.length (processUnixStyleFlags args).
Proof.
  intros args. split.
  - apply process_fixed. intros b Hb.
    destruct (process_in _ _ Hb) as [a [_ Hin]].
    eapply expandArg_fixed; exact Hin.
  - induction args as [|a args IH]; simpl; [lia|].
    rewrite length_app. pose proof (expandArg_not_nil a). lia.
Qed.

(** The command lines of the usage text. *)
Example expand_cvf :
  processUnixStyleFlags [u "-cvf"; u "archive.zip"; u "folder"]
  = [u "-c"; u "-v"; u "-f"; u "archive.zip"; u "folder"]
  /\ processUnixStyleFlags [u "-action=compress"; u "--verbose"; u "-vf"; u "-x"]
     = [u "-action=compress"; u "--verbose"; u "-vf"; u "-x"].
Proof. split; vm_compute; reflexivity. Qed.

(** X2.  With one of [-c], [-x], [-t] the action, input and output come
    from these flags and the positional arguments: the values of
    [-action], [-input] and [-output] have no effect.  Without any of
    them the positional arguments have no effect. *)
Theorem unix_flags_override_long_form :
  forall fv,
    (fvC fv || fvX fv || fvT fv = true ->
     forall action input output,
       buildArgs (withLongForm fv action input output) = buildArgs fv)
    /\ (fvC fv || fvX fv || fvT fv = false ->
        forall posArgs, buildArgs (withArgs fv posArgs) = buildArgs fv).
Proof.
  intros fv. split.
  - intros H action input output. unfold buildArgs, positional; simpl.
    destruct (fvHelp fv || fvH fv); [reflexivity|].
    destruct (fvVersion fv); [reflexivity|].
    destruct (fvC fv); simpl.
    + destruct (Nat.leb 1 (List.length (fvArgs fv))); [reflexivity|].
      simpl. destruct (fvX fv || fvT fv); simpl;
        destruct (Nat.ltb 0 (List.length (fvArgs fv))); reflexivity.
    + destruct (fvX fv); simpl.
      * destruct (Nat.leb 1 (List.length (fvArgs fv))); [reflexivity|].
        destruct (Nat.ltb 0 (List.length (fvArgs fv))); reflexivity.
      * destruct (fvT fv); [|discriminate]. simpl.
        destruct (Nat.leb 1 (List.length (fvArgs fv))); [reflexivity|].
        destruct (Nat.ltb 0 (List.length (fvArgs fv))); reflexivity.
  - intros H posArgs.
    apply orb_false_iff in H as [H Ht]. apply orb_false_iff in H as [Hc Hx].
    unfold buildArgs, positional; simpl. rewrite Hc, Hx, Ht; simpl.
    destruct (fvHelp fv || fvH fv); [reflexivity|].
    destruct (fvVersion fv); [reflexivity|].
    destruct (Nat.ltb 0 (List.length posArgs));
      destruct (Nat.ltb 0 (List.length (fvArgs fv))); reflexivity.
Qed.

Lemma unix_flags_override_long_form_witness :
  (forall action input output,
      buildArgs (withLongForm cvfFlags action input output) = buildArgs cvfFlags)
  /\ (forall posArgs, buildArgs (withArgs longFlags posArgs) = buildArgs longFlags).
Proof.
  split.
  - apply (proj1 (unix_flags_override_long_form cvfFlags)); reflexivity.
  - apply (proj2 (unix_flags_override_long_form longFlags)); reflexivity.
Defined.

Example parse_cvf :
  main (Ok (buildArgs cvfFlags))
  = RunCompress {| Format := FormatZip; Level := LevelNormal; Password := [];
                   Workers := 8; Verbose := true |}
                (u "folder") (u "archive.zip").
Proof. vm_compute; reflexivity. Qed.

Lemma ParseFormat_targz (s : chars) :
  ParseFormat s = FormatTarGz
  <-> ToLower s = u "tar.gz" \/ ToLower s = u "tgz".
Proof.
  unfold ParseFormat, Naming.u, u. rewrite <- !eqb_eq.
  repeat match goal with
         | |- context [Str.eqb ?a ?b] => destruct (Str.eqb a b)
         end; simpl; intuition congruence.
Qed.

(** X3.  The format [main] hands to the operator: tar.gz exactly when [-z]
    is given, or when none of [-z], [-j], [-Z] is given and [-format] is
    "tar.gz" or "tgz" in any letter case.  With [-j] or [-Z] (and no [-z])
    the format is zip, whatever [-format] says. *)
Theorem format_selected_by_flags :
  forall fv,
    fvHelp fv || fvH fv = false -> fvVersion fv = false ->
    (Format (buildOptions (buildArgs fv)) = FormatTarGz
     <-> fvZ fv = true
         \/ (fvZ fv = false /\ fvJ fv = false /\ fvZ7 fv = false
             /\ (ToLower (fvFormat fv) = u "tar.gz"
                 \/ ToLower (fvFormat fv) = u "tgz")))
    /\ (fvZ fv = false -> fvJ fv || fvZ7 fv = true ->
        Format (buildOptions (buildArgs fv)) = FormatZip).
Proof.
  intros fv Hh Hv.
  assert (E : Format (buildOptions (buildArgs fv))
              = if fvZ fv then FormatTarGz
                else if fvJ fv then FormatZip
                else if fvZ7 fv then FormatZip
                else ParseFormat (fvFormat fv)).
  { unfold buildOptions, buildArgs. rewrite Hh, Hv.
    destruct (positional fv) as [i o]. simpl.
    destruct (fvZ fv), (fvJ fv), (fvZ7 fv); reflexivity. }
  rewrite E. split.
  - destruct (fvZ fv), (fvJ fv), (fvZ7 fv);
      try rewrite ParseFormat_targz; intuition congruence.
  - intros Hz Hj. rewrite Hz. destruct (fvJ fv), (fvZ7 fv);
      try reflexivity; discriminate.
Qed.

Lemma format_selected_by_flags_witness :
  (Format (buildOptions (buildArgs longFlags)) = FormatTarGz
   <-> fvZ longFlags = true
       \/ (fvZ longFlags = false /\ fvJ longFlags = false
           /\ fvZ7 longFlags = false
           /\ (ToLower (fvFormat longFlags) = u "tar.gz"
               \/ ToLower (fvFormat longFlags) = u "tgz")))
  /\ (fvZ longFlags = false -> fvJ longFlags || fvZ7 longFlags = true ->
      Format (buildOptions (buildArgs longFlags)) = FormatZip).
Proof.
  apply (format_selected_by_flags longFlags); reflexivity.
Defined.

End CliFacts.

(* ===================================================================== *)
(** * Archive names and the choice of the decoder *)
(* ===================================================================== *)

Module NamingFacts.
Import Str FilePath Models World Archive Crypto Codec Naming Cli Main Samples.
Import PathFacts.

Lemma Ext_of_suffix (sep : ascii) (p : chars) :
  sep = slash \/ sep = backslash ->
  Ext sep (p ++ Naming.u ".tar.gz") = Naming.u ".gz"
  /\ Ext sep (p ++ Naming.u ".zip") = Naming.u ".zip"
  /\ Ext sep (p ++ Naming.u ".tgz") = Naming.u ".tgz".
Proof.
  intros [-> | ->]; unfold Ext; rewrite !rev_app_distr; repeat split; reflexivity.
Qed.

(** X4.  [main] compresses without [-output] into the input path followed
    by the extension of the format.  For an archive of that name and no
    password, [Extract] and [List] pick the decoder of the format it was
    written in: the tar.gz reader over the opened file for tar.gz, the zip
    reader by path for zip. *)
Theorem default_archive_name_selects_decoder :
  forall env args file,
    Operator.envSep env = slash \/ Operator.envSep env = backslash ->
    cliHelp args = false -> cliVersion args = false ->
    isOneOf (cliAction args) "compress" "c" = true ->
    isEmpty (cliInput args) = false ->
    isEmpty (cliOutput args) = true ->
    isEmpty (cliPassword args) = true ->
    let opts := buildOptions args in
    let archive := cliInput args ++ GetExtension (Format opts) in
    Operator.osOpen env archive = Ok file ->
    main (Ok args) = RunCompress opts (cliInput args) archive
    /\ Operator.Extract_route env opts archive
       = match Format opts with
         | FormatTarGz => Operator.ViaTarGz (FileReader file)
         | FormatZip => Operator.ViaZip
         end
    /\ Operator.List env archive
       = match Format opts with
         | FormatZip => listZip (Operator.zipOpenReader env archive)
         | FormatTarGz => listTarGz (Operator.gzipTarReader env file)
         end.
Proof.
  intros env args file Hsep Hh Hv Hact Hin Hout Hpw; cbv zeta.
  destruct (Ext_of_suffix (Operator.envSep env) (cliInput args) Hsep)
    as [Egz [Ezip _]].
  intros Hopen. split.
  - unfold main. rewrite Hh, Hv, Hin, Hact, Hout.
    assert (Ha : isEmpty (cliAction args) = false).
    { destruct (cliAction args); [discriminate Hact | reflexivity]. }
    rewrite Ha; reflexivity.
  - revert Hopen. unfold Operator.Extract_route, Operator.List.
    change (Password (buildOptions args)) with (cliPassword args).
    rewrite Hpw.
    destruct (Format (buildOptions args)); cbv [GetExtension];
      intros Hopen; rewrite Hopen.
    + rewrite Ezip; split; reflexivity.
    + rewrite Egz; split; reflexivity.
Qed.

Lemma default_archive_name_selects_decoder_witness :
  main (Ok compressNotes)
  = RunCompress (buildOptions compressNotes) (Naming.u "notes")
                (Naming.u "notes.tar.gz")
  /\ Operator.Extract_route (toyEnv sixtyBytes []) (buildOptions compressNotes)
       (Naming.u "notes.tar.gz")
     = Operator.ViaTarGz (FileReader sixtyBytes)
  /\ Operator.List (toyEnv sixtyBytes []) (Naming.u "notes.tar.gz")
     = listTarGz (toyGzipTar sixtyBytes).
Proof.
  apply (default_archive_name_selects_decoder
           (toyEnv sixtyBytes []) compressNotes sixtyBytes);
    try reflexivity.
  left; reflexivity.
Defined.

(** X5.  "tgz" is a name of the tar.gz format for [ParseFormat], but an
    archive named with the extension ".tgz" is never given to the tar.gz
    decoder by [Extract] -- it is opened as zip unless [Extract] stops
    before -- and [List] refuses it without printing. *)
Theorem tgz_extension_is_not_targz :
  forall env opts p tr,
    Operator.envSep env = slash \/ Operator.envSep env = backslash ->
    ParseFormat (Naming.u "tgz") = FormatTarGz
    /\ (forall reader,
          Operator.Extract_route env opts (p ++ Naming.u ".tgz")
          <> Operator.ViaTarGz reader)
    /\ Operator.List env (p ++ Naming.u ".tgz") tr
       = (tr, Err (Naming.u "unsupported archive format: .tgz")).
Proof.
  intros env opts p tr Hsep.
  destruct (Ext_of_suffix (Operator.envSep env) p Hsep) as [_ [_ Etgz]].
  split; [reflexivity|]. split.
  - intros reader. unfold Operator.Extract_route.
    destruct (Operator.osOpen env _); [|discriminate].
    rewrite Etgz.
    destruct (negb (isEmpty (Password opts))); [|discriminate].
    destruct (NewEncryptedReader _ _ _); discriminate.
  - unfold Operator.List. rewrite Etgz; reflexivity.
Qed.

Lemma tgz_extension_is_not_targz_witness :
  ParseFormat (Naming.u "tgz") = FormatTarGz
  /\ (forall reader,
        Operator.Extract_route (toyEnv sixtyBytes []) quiet
          (Naming.u "backup" ++ Naming.u ".tgz")
        <> Operator.ViaTarGz reader)
  /\ Operator.List (toyEnv sixtyBytes []) (Naming.u "backup" ++ Naming.u ".tgz") []
     = ([], Err (Naming.u "unsupported archive format: .tgz")).
Proof.
  apply (tgz_extension_is_not_targz (toyEnv sixtyBytes []) quiet
           (Naming.u "backup") []).
  left; reflexivity.
Defined.

End NamingFacts.

(* ===================================================================== *)
(** * The encryption stream: layout and reading back *)
(* ===================================================================== *)

Module StreamFacts.
Import Str Models World Crypto Samples.

Lemma NewEncryptedWriter_ok c salt nonce w password :
  sinkErr w = None ->
  NewEncryptedWriter c (Ok salt) (Ok nonce) w password
  = Ok {| ewWriter := {| sinkData := (sinkData w ++ salt) ++ nonce;
                         sinkErr := None |};
          ewKey := pbkdf2Key c password salt;
          ewNonce := nonce;
          ewSeals := [] |}.
Proof.
  intros H; unfold NewEncryptedWriter, Sink_Write; rewrite H; reflexivity.
Qed.

Lemma WriteAll_ok c chunks : forall ew,
  sinkErr (ewWriter ew) = None ->
  EncryptedWriter_WriteAll c ew chunks
  = ({| ewWriter :=
          {| sinkData := sinkData (ewWriter ew)
                         ++ List.concat (map (gcmSeal c (ewKey ew) (ewNonce ew)) chunks);
             sinkErr := None |};
        ewKey := ewKey ew;
        ewNonce := ewNonce ew;
        ewSeals := ewSeals ew ++ map (fun p => (ewNonce ew, p)) chunks |},
     None).
Proof.
  induction chunks as [|p rest IH]; intros [[d e] k n seals] H;
    simpl in H; subst e.
  - simpl; rewrite !app_nil_r; reflexivity.
  - simpl. unfold EncryptedWriter_Write, Sink_Write; simpl.
    rewrite IH by reflexivity; simpl.
    rewrite <- !app_assoc; reflexivity.
Qed.

Lemma firstn_exact {A} (l1 l2 : list A) :
  firstn (List.length l1) (l1 ++ l2) = l1.
Proof.
  rewrite firstn_app, Nat.sub_diag, firstn_all; simpl; apply app_nil_r.
Qed.

Lemma skipn_exact {A} (l1 l2 : list A) :
  skipn (List.length l1) (l1 ++ l2) = l2.
Proof.
  rewrite skipn_app, Nat.sub_diag, skipn_all; reflexivity.
Qed.

Lemma NewEncryptedReader_header c salt nonce body ending password :
  List.length salt = SaltSize -> List.length nonce = NonceSize ->
  NewEncryptedReader c {| srcData := salt ++ nonce ++ body; srcEnd := ending |}
                     password
  = Ok {| erReader := {| srcData := body; srcEnd := ending |};
          erKey := pbkdf2Key c password salt;
          erNonce := nonce |}.
Proof.
  intros Hs Hn. unfold NewEncryptedReader. rewrite <- Hs, <- Hn.
  rewrite OperatorFacts.ReadFull_ok
    by (cbn [srcData]; rewrite length_app; lia).
  cbn [srcData srcEnd]. rewrite firstn_exact, skipn_exact.
  rewrite OperatorFacts.ReadFull_ok
    by (cbn [srcData]; rewrite length_app; lia).
  cbn [srcData srcEnd]. rewrite firstn_exact, skipn_exact. reflexivity.
Qed.

(** X6.  On a file that takes every write, the writer puts the salt, the
    nonce and then one sealed chunk for each [Write], in order, after what
    the file held; it reports no error.  A reader made over the salt, the
    nonce and any bytes after them, with the same password, holds the key
    and nonce of the writer and stands at the first of those bytes. *)
Theorem encrypted_container_layout :
  forall c salt nonce w password chunks body ending,
    sinkErr w = None ->
    List.length salt = SaltSize -> List.length nonce = NonceSize ->
    exists ew,
      NewEncryptedWriter c (Ok salt) (Ok nonce) w password = Ok ew
      /\ snd (EncryptedWriter_WriteAll c ew chunks) = None
      /\ sinkData (ewWriter (fst (EncryptedWriter_WriteAll c ew chunks)))
         = sinkData w ++ salt ++ nonce
           ++ List.concat (map (gcmSeal c (pbkdf2Key c password salt) nonce) chunks)
      /\ NewEncryptedReader c
           {| srcData := salt ++ nonce ++ body; srcEnd := ending |} password
         = Ok {| erReader := {| srcData := body; srcEnd := ending |};
                 erKey := ewKey ew; erNonce := ewNonce ew |}.
Proof.
  intros c salt nonce w password chunks body ending Hw Hs Hn.
  eexists. split; [apply NewEncryptedWriter_ok; exact Hw|].
  rewrite WriteAll_ok by reflexivity. cbn [fst snd ewWriter sinkData ewKey ewNonce].
  split; [reflexivity|]. split.
  - rewrite <- !app_assoc; reflexivity.
  - apply NewEncryptedReader_header; assumption.
Qed.

Lemma encrypted_container_layout_witness :
  exists ew,
    NewEncryptedWriter toyCipher (Ok zeroSalt) (Ok oneNonce) emptySink (u "secret")
    = Ok ew
    /\ snd (EncryptedWriter_WriteAll toyCipher ew [text "ab"; text "c"]) = None
    /\ sinkData (ewWriter (fst (EncryptedWriter_WriteAll toyCipher ew
                                  [text "ab"; text "c"])))
       = sinkData emptySink ++ zeroSalt ++ oneNonce
         ++ List.concat (map (gcmSeal toyCipher
                           (pbkdf2Key toyCipher (u "secret") zeroSalt) oneNonce)
                        [text "ab"; text "c"])
    /\ NewEncryptedReader toyCipher
         {| srcData := zeroSalt ++ oneNonce ++ text "rest"; srcEnd := None |}
         (u "secret")
       = Ok {| erReader := {| srcData := text "rest"; srcEnd := None |};
               erKey := ewKey ew; erNonce := ewNonce ew |}.
Proof.
  apply (encrypted_container_layout toyCipher zeroSalt oneNonce emptySink
           (u "secret") [text "ab"; text "c"] (text "rest") None);
    reflexivity.
Defined.

(** A [Read] whose buffer, with the room for the tag, takes all that is
    left of the file: all of it goes to one [gcm.Open]. *)
Lemma Read_takes_all c body ending key nonce plen :
  body <> [] -> List.length body <= plen + Overhead ->
  let er := {| erReader := {| srcData := body; srcEnd := ending |};
               erKey := key; erNonce := nonce |} in
  sealedChunk er plen = body
  /\ snd (EncryptedReader_Read c er plen)
     = match Open c key nonce body with
       | None => {| rrCopied := []; rrN := 0; rrErr := Some decryptionFailed |}
       | Some d => {| rrCopied := firstn plen d; rrN := List.length d;
                      rrErr := None |}
       end.
Proof.
  intros Hne Hlen er.
  assert (E : Source_Read (erReader er) (plen + Overhead)
              = (body, None, {| srcData := skipn (plen + Overhead) body;
                                srcEnd := ending |})).
  { unfold Source_Read; cbn [er erReader srcData srcEnd].
    destruct (plen + Overhead) eqn:En; [unfold Overhead in En; lia|].
    destruct body as [|b body']; [contradiction|].
    rewrite firstn_all2 by exact Hlen. reflexivity. }
  split.
  - unfold sealedChunk; rewrite E; reflexivity.
  - unfold EncryptedReader_Read; rewrite E; cbn [er erKey erNonce].
    destruct (Open c key nonce body); reflexivity.
Qed.

(** X7.  An archive written by a single [Write] of [p] is read back: when
    the cipher opens what it sealed and the sealed text is [p] and a tag,
    a reader with the same password whose buffer holds [p] gets exactly
    [p], the count [len(p)] and no error. *)
Theorem single_write_round_trip :
  forall c salt nonce password p plen,
    let key := pbkdf2Key c password salt in
    List.length salt = SaltSize -> List.length nonce = NonceSize ->
    gcmOpen c key nonce (gcmSeal c key nonce p) = Some p ->
    List.length (gcmSeal c key nonce p) = List.length p + Overhead ->
    List.length p <= plen ->
    exists ew er,
      NewEncryptedWriter c (Ok salt) (Ok nonce) emptySink password = Ok ew
      /\ NewEncryptedReader c
           {| srcData := sinkData (ewWriter (fst (EncryptedWriter_Write c ew p)));
              srcEnd := None |} password = Ok er
      /\ snd (EncryptedReader_Read c er plen)
         = {| rrCopied := p; rrN := List.length p; rrErr := None |}.
Proof.
  intros c salt nonce password p plen key Hs Hn Hopen Hlen Hp.
  set (k := pbkdf2Key c password salt) in *. subst key.
  eexists. eexists. split; [apply NewEncryptedWriter_ok; reflexivity|].
  unfold EncryptedWriter_Write, Sink_Write;
    cbn [fst ewWriter sinkData sinkErr ewKey ewNonce emptySink].
  fold k. rewrite <- !app_assoc. cbn [app].
  split; [apply NewEncryptedReader_header; assumption|].
  destruct (Read_takes_all c (gcmSeal c k nonce p) None k nonce plen)
    as [_ Hread].
  - intros E; rewrite E in Hlen; unfold Overhead in Hlen; simpl in Hlen; lia.
  - rewrite Hlen; lia.
  - fold k. rewrite Hread. unfold Open.
    replace (Nat.ltb (List.length (gcmSeal c k nonce p)) Overhead) with false
      by (symmetry; apply Nat.ltb_ge; rewrite Hlen; lia).
    rewrite Hopen, firstn_all2 by exact Hp. reflexivity.
Qed.

Lemma single_write_round_trip_witness :
  exists ew er,
    NewEncryptedWriter toyCipher (Ok zeroSalt) (Ok oneNonce) emptySink (u "secret")
    = Ok ew
    /\ NewEncryptedReader toyCipher
         {| srcData := sinkData (ewWriter (fst (EncryptedWriter_Write toyCipher ew
                                                  (text "hello"))));
            srcEnd := None |} (u "secret") = Ok er
    /\ snd (EncryptedReader_Read toyCipher er 4096)
       = {| rrCopied := text "hello"; rrN := List.length (text "hello");
            rrErr := None |}.
Proof.
  apply (single_write_round_trip toyCipher zeroSalt oneNonce (u "secret")
           (text "hello") 4096); try reflexivity.
  vm_compute; lia.
Defined.

(** X8.  An archive written by two [Write] calls: the first [Read] with a
    buffer that can take all the sealed bytes hands both sealed chunks, as
    one, to a single [gcm.Open]; when the cipher rejects that, the archive
    is not read back with the password it was written with -- the [Read]
    returns no byte and "decryption failed". *)
Theorem two_writes_are_opened_as_one_chunk :
  forall c salt nonce password p1 p2 plen,
    let key := pbkdf2Key c password salt in
    let sealed := gcmSeal c key nonce p1 ++ gcmSeal c key nonce p2 in
    List.length salt = SaltSize -> List.length nonce = NonceSize ->
    sealed <> [] -> List.length sealed <= plen + Overhead ->
    Open c key nonce sealed = None ->
    exists ew er,
      NewEncryptedWriter c (Ok salt) (Ok nonce) emptySink password = Ok ew
      /\ NewEncryptedReader c
           {| srcData := sinkData (ewWriter (fst (EncryptedWriter_WriteAll c ew
                                                    [p1; p2])));
              srcEnd := None |} password = Ok er
      /\ sealedChunk er plen = sealed
      /\ snd (EncryptedReader_Read c er plen)
         = {| rrCopied := []; rrN := 0; rrErr := Some decryptionFailed |}.
Proof.
  intros c salt nonce password p1 p2 plen key sealed Hs Hn Hne Hlen Hrej.
  set (k := pbkdf2Key c password salt) in *. subst key.
  set (both := gcmSeal c k nonce p1 ++ gcmSeal c k nonce p2) in *. subst sealed.
  eexists. eexists. split; [apply NewEncryptedWriter_ok; reflexivity|].
  rewrite WriteAll_ok by reflexivity.
  cbn [fst ewWriter sinkData sinkErr ewKey ewNonce emptySink map List.concat].
  fold k. rewrite app_nil_r. fold both. rewrite <- !app_assoc. cbn [app].
  split; [apply NewEncryptedReader_header; assumption|].
  destruct (Read_takes_all c both None k nonce plen Hne Hlen)
    as [Hchunk Hread].
  fold k. split; [exact Hchunk|].
  rewrite Hread, Hrej; reflexivity.
Qed.

Lemma two_writes_are_opened_as_one_chunk_witness :
  exists ew er,
    NewEncryptedWriter framedCipher (Ok zeroSalt) (Ok oneNonce) emptySink
                       (u "secret") = Ok ew
    /\ NewEncryptedReader framedCipher
         {| srcData := sinkData (ewWriter (fst (EncryptedWriter_WriteAll
                                                  framedCipher ew
                                                  [text "head"; text "body"])));
            srcEnd := None |} (u "secret") = Ok er
    /\ sealedChunk er 4096
       = gcmSeal framedCipher (pbkdf2Key framedCipher (u "secret") zeroSalt)
                 oneNonce (text "head")
         ++ gcmSeal framedCipher (pbkdf2Key framedCipher (u "secret") zeroSalt)
                    oneNonce (text "body")
    /\ snd (EncryptedReader_Read framedCipher er 4096)
       = {| rrCopied := []; rrN := 0; rrErr := Some decryptionFailed |}.
Proof.
  apply (two_writes_are_opened_as_one_chunk framedCipher zeroSalt oneNonce
           (u "secret") (text "head") (text "body") 4096).
  - reflexivity.
  - reflexivity.
  - vm_compute; discriminate.
  - vm_compute; lia.
  - vm_compute; reflexivity.
Defined.

Lemma drain_ends_in_error c bufSize : forall fuel er,
  0 < bufSize ->
  List.length (srcData (erReader er)) < fuel ->
  srcEnd (erReader er) = None ->
  srcEnd (drain c bufSize fuel er) = Some decryptionFailed.
Proof.
  induction fuel as [|fuel IH]; intros er Hb Hlen Hend; [lia|].
  simpl. unfold EncryptedReader_Read, Source_Read.
  destruct (bufSize + Overhead) eqn:En; [lia|].
  destruct (srcData (erReader er)) as [|b d] eqn:Ed.
  - unfold endOf; rewrite Hend. unfold Open; simpl. reflexivity.
  - destruct (Open c (erKey er) (erNonce er) (firstn (S n) (b :: d)));
      cbn [rrErr]; [|reflexivity].
    cbn [srcEnd]. apply IH; cbn [erReader srcData srcEnd]; auto.
    simpl in Hlen. simpl skipn. rewrite length_skipn. lia.
Qed.

(** X9.  The stream that [Extract] hands to the tar.gz decoder for an
    encrypted archive never ends cleanly: when the file itself reads
    without error, the decrypted bytes are always followed by "decryption
    failed" -- at the end of the file the reader asks the cipher to open
    zero bytes -- whatever the cipher, the password and the contents. *)
Theorem decrypted_stream_ends_in_error :
  forall c er,
    srcEnd (erReader er) = None ->
    srcEnd (readerStream c (Decrypting er)) = Some decryptionFailed.
Proof.
  intros c er Hend. unfold readerStream.
  apply drain_ends_in_error; [unfold bufioSize; lia | lia | exact Hend].
Qed.

Lemma decrypted_stream_ends_in_error_witness :
  srcEnd (readerStream toyCipher (Decrypting (openedWith "secret" sealedHi)))
  = Some decryptionFailed.
Proof.
  apply (decrypted_stream_ends_in_error toyCipher (openedWith "secret" sealedHi)).
  reflexivity.
Defined.

(** With the right password the bytes are there, and the error after
    them. *)
Example right_password_stream :
  readerStream toyCipher (Decrypting (openedWith "secret" sealedHi))
  = {| srcData := text "hi"; srcEnd := Some decryptionFailed |}.
Proof. vm_compute; reflexivity. Qed.

End StreamFacts.

(* ===================================================================== *)
(** * The worker pool: no worker, one worker, the error returned *)
(* ===================================================================== *)

Module PoolExtra.
Import Str FilePath Models World Archive Pool Samples PoolFacts.




Lemma serial_invariant sep wd fsys outputPath opts files tr0 s :
  Workers opts = 1%Z ->
  Pool.steps sep wd fsys outputPath opts (init files tr0) s ->
  map fst (returned s) ++ running s ++ pending s = files
  /\ List.length (running s) <= 1.
Proof.
  intros Hw H. remember (init files tr0) as s0 eqn:E.
  induction H as [s | s1 s2 s3 H12 IH [c H23]].
  - rewrite E; simpl; split; [reflexivity | lia].
  - destruct (IH E) as [Hall Hlen]. rewrite E in H12.
    pose proof (inv_steps _ _ _ _ _ _ _ _ H12) as HI.
    destruct HI as [Hsem _ _ _ _ _ _ _].
    destruct c as [|i]; unfold Pool.stepWith in H23.
    + destruct (pending s2) as [|f rest] eqn:Ep; [discriminate|].
      destruct (Z.ltb (Z.of_nat (sem s2)) (Workers opts)) eqn:Elt; [|discriminate].
      injection H23 as <-; simpl.
      apply Z.ltb_lt in Elt. rewrite Hw in Elt.
      assert (Hr : running s2 = []).
      { destruct (running s2); [reflexivity | simpl in Hsem; lia]. }
      rewrite Hr in *; simpl in *. split; [exact Hall | lia].
    + destruct (nth_error (running s2) i) as [f|] eqn:En; [|discriminate].
      destruct (Pool.task sep wd fsys outputPath opts f (errChan s2) (trace s2))
        as [[res ch] tr].
      injection H23 as <-; simpl.
      destruct (running s2) as [|g [|g' l]] eqn:Er.
      * destruct i; discriminate.
      * destruct i as [|i]; [|destruct i; discriminate].
        simpl in En; injection En as ->. simpl.
        rewrite map_app, <- app_assoc; simpl. split; [exact Hall | lia].
      * simpl in Hlen; lia.
Qed.

(** X11.  With one worker the entries are extracted one after the other
    in the order of the archive: at the end of every run the calls of
    [extractZipFile] that have returned are those of the entries in that
    order, and the error returned is that of the first entry that
    failed. *)
Theorem one_worker_extracts_in_archive_order :
  forall sep wd fsys outputPath opts files tr0 s,
    Workers opts = 1%Z ->
    Pool.steps sep wd fsys outputPath opts (init files tr0) s ->
    finished s ->
    map fst (returned s) = files
    /\ errChan s = firstError (returned s).
Proof.
  intros sep wd fsys outputPath opts files tr0 s Hw Hs [Hp Hwg].
  destruct (serial_invariant _ _ _ _ _ _ _ _ Hw Hs) as [Hall _].
  destruct (inv_steps _ _ _ _ _ _ _ _ Hs) as [_ Hwg' _ _ Herr _ _ _].
  assert (Hr : running s = []).
  { destruct (running s); [reflexivity | simpl in Hwg'; lia]. }
  rewrite Hp, Hr in Hall; simpl in Hall; rewrite app_nil_r in Hall.
  split; [exact Hall | exact Herr].
Qed.

Lemma one_worker_extracts_in_archive_order_witness :
  map fst (returned (serialRun 6)) = threeFiles
  /\ errChan (serialRun 6) = firstError (returned (serialRun 6)).
Proof.
  apply (one_worker_extracts_in_archive_order slash home okFs (u "/tmp/out")
           oneWorker threeFiles [] (serialRun 6)).
  - reflexivity.
  - apply run_steps.
  - split; reflexivity.
Defined.




End PoolExtra.

(* ===================================================================== *)
(** * Operator: edges of Extract, List and Compress *)
(* ===================================================================== *)

Module OperatorExtra.
Import Str FilePath Models World Archive Crypto Pool Codec Samples.
Import PathFacts MFacts CryptoFacts OperatorFacts CodecFacts.

Lemma ReadFull_short_message s n :
  srcEnd s = None -> List.length (srcData s) < n ->
  ReadFull s n
  = Err (if Nat.eqb (List.length (srcData s)) 0
         then Crypto.u "EOF" else Crypto.u "unexpected EOF").
Proof.
  intros He Hl. unfold ReadFull, endOf.
  replace (Nat.leb n (List.length (srcData s))) with false
    by (symmetry; apply Nat.leb_gt; exact Hl).
  rewrite He. destruct (srcData s); reflexivity.
Qed.

Lemma NewEncryptedReader_short c file password :
  srcEnd file = None -> List.length (srcData file) < headerSize ->
  NewEncryptedReader c file password
  = Err (if Nat.eqb (List.length (srcData file)) 0
            || Nat.eqb (List.length (srcData file)) SaltSize
         then Crypto.u "EOF" else Crypto.u "unexpected EOF").
Proof.
  intros He Hl. unfold NewEncryptedReader, headerSize, SaltSize, NonceSize in *.
  destruct (Nat.le_gt_cases 32 (List.length (srcData file))) as [H32 | H32].
  - rewrite ReadFull_ok by exact H32.
    rewrite ReadFull_short_message
      by (cbn [srcData srcEnd]; first [exact He | rewrite length_skipn; lia]).
    cbn [srcData]. rewrite length_skipn.
    replace (Nat.eqb (List.length (srcData file)) 0) with false
      by (symmetry; apply Nat.eqb_neq; lia).
    simpl orb.
    destruct (Nat.eqb (List.length (srcData file)) 32) eqn:E.
    + apply Nat.eqb_eq in E. rewrite E; reflexivity.
    + apply Nat.eqb_neq in E.
      replace (Nat.eqb (List.length (srcData file) - 32) 0) with false
        by (symmetry; apply Nat.eqb_neq; lia).
      reflexivity.
  - rewrite ReadFull_short_message by assumption.
    replace (Nat.eqb (List.length (srcData file)) 32) with false
      by (symmetry; apply Nat.eqb_neq; lia).
    rewrite orb_false_r; reflexivity.
Qed.

(** X13.  [Extract] with a password on a file shorter than the 44 bytes of
    salt and nonce stops in [NewEncryptedReader], for either format and
    before any decoding: it returns "decryption setup: EOF" when the file
    is empty or ends right after the salt, "decryption setup: unexpected
    EOF" otherwise, and asks nothing of the file system. *)
Theorem short_file_with_password_is_refused :
  forall env opts inputPath outputPath file tr0 tr r,
    Operator.osOpen env inputPath = Ok file ->
    srcEnd file = None ->
    isEmpty (Password opts) = false ->
    List.length (srcData file) < headerSize ->
    Operator.Extract_returns env opts inputPath outputPath tr0 tr r ->
    r = Err (Operator.wrap "decryption setup"
               (if Nat.eqb (List.length (srcData file)) 0
                   || Nat.eqb (List.length (srcData file)) SaltSize
                then Crypto.u "EOF" else Crypto.u "unexpected EOF"))
    /\ fsOps tr = fsOps tr0.
Proof.
  intros env opts inputPath outputPath file tr0 tr r Ho He Hp Hl Hrun.
  unfold Operator.Extract_returns, Operator.Extract_route in Hrun.
  rewrite Ho, Hp in Hrun. cbn [negb] in Hrun.
  rewrite (NewEncryptedReader_short _ _ _ He Hl) in Hrun.
  cbv beta iota in Hrun. destruct Hrun as [-> ->].
  split; [reflexivity | apply fsOps_announce].
Qed.

Lemma short_file_with_password_is_refused_witness :
  @Err unit (Operator.wrap "decryption setup" (Crypto.u "unexpected EOF"))
  = Err (Operator.wrap "decryption setup"
           (if Nat.eqb (List.length (srcData tenBytes)) 0
               || Nat.eqb (List.length (srcData tenBytes)) SaltSize
            then Crypto.u "EOF" else Crypto.u "unexpected EOF"))
  /\ fsOps (@nil Event) = fsOps [].
Proof.
  apply (short_file_with_password_is_refused (toyEnv tenBytes threeFiles)
           (withPassword "secret") (u "photos.zip") (u "/tmp/out") tenBytes
           [] [] (Err (Operator.wrap "decryption setup" (Crypto.u "unexpected EOF")))).
  - reflexivity.
  - reflexivity.
  - reflexivity.
  - vm_compute; lia.
  - vm_compute; split; reflexivity.
Defined.

Lemma fsOps_stdout (lines : list chars) : fsOps (map Stdout lines) = [].
Proof. induction lines; simpl; auto. Qed.

Lemma printAll_no_fs lines tr : fsOps (fst (printAll lines tr)) = fsOps tr.
Proof.
  rewrite printAll_spec; simpl.
  rewrite fsOps_app, fsOps_stdout; apply app_nil_r.
Qed.

(** X14.  [List] asks nothing of the file system, for every input path,
    whatever the archive holds and whether it returns an error or not. *)
Theorem list_makes_no_file_system_call :
  forall env inputPath tr,
    fsOps (fst (Operator.List env inputPath tr)) = fsOps tr.
Proof.
  intros env inputPath tr. unfold Operator.List.
  match goal with
  | |- context [if Str.eqb ?a ?b then listZip _ else _] =>
      destruct (Str.eqb a b)
  end.
  - unfold listZip. destruct (Operator.zipOpenReader env inputPath); [|reflexivity].
    unfold bind, emit.
    rewrite printAll_no_fs, fsOps_app; simpl; apply app_nil_r.
  - match goal with
    | |- context [if Str.eqb ?a ?b then listTarGz _ else _] =>
        destruct (Str.eqb a b); [|reflexivity]
    end.
    unfold listTarGz.
    destruct (match Operator.osOpen env inputPath with
              | Ok file => Operator.gzipTarReader env file
              | Err e => Err e
              end) as [ts|e]; [|reflexivity].
    unfold bind, emit.
    pose proof (printAll_no_fs
                  (map (fun e => listLine (tName e) (tSize e)) (tsEntries ts))
                  (tr ++ [Stdout (Archive.u "Archive contents:")])) as H.
    destruct (printAll _ _) as [t [[]|e]]; simpl in *.
    + destruct (tsEnd ts); simpl; rewrite H, fsOps_app; simpl; apply app_nil_r.
    + rewrite H, fsOps_app; simpl; apply app_nil_r.
Qed.

(** X15.  The archive of a directory starts with an entry for the
    directory itself, named "./" in the zip format and "." in the tar.gz
    format, before any of its descendants. *)
Theorem directory_archive_starts_with_its_root :
  forall sep inputPath mode children,
    sep = slash \/ sep = backslash ->
    (exists rest,
       fst (compressZip sep inputPath (Dir mode children))
       = {| wName := Archive.u "./"; wIsDir := true; wMode := mode; wData := [] |}
         :: rest)
    /\ (exists rest,
          fst (compressTarGz sep inputPath (Dir mode children))
          = {| wName := Archive.u "."; wIsDir := true; wMode := mode; wData := [] |}
            :: rest).
Proof.
  intros sep inputPath mode children Hsep.
  assert (Hrel : Rel sep inputPath inputPath = Some [dot]).
  { unfold Rel; rewrite eqb_refl; reflexivity. }
  assert (Hslash : ToSlash sep [dot] = [dot]).
  { destruct Hsep as [-> | ->]; reflexivity. }
  unfold compressZip, compressTarGz; simpl.
  unfold zipVisit, tarVisit. rewrite Hrel, Hslash. simpl.
  split.
  - destruct (visitAll _ _) as [ws r]; eexists; reflexivity.
  - destruct (visitAll _ _) as [ws r]; eexists; reflexivity.
Qed.

Lemma directory_archive_starts_with_its_root_witness :
  (exists rest,
     fst (compressZip backslash (Archive.u "in") (Dir 493 [(Archive.u "a", File 420 [])]))
     = {| wName := Archive.u "./"; wIsDir := true; wMode := 493; wData := [] |}
       :: rest)
  /\ (exists rest,
        fst (compressTarGz backslash (Archive.u "in")
                           (Dir 493 [(Archive.u "a", File 420 [])]))
        = {| wName := Archive.u "."; wIsDir := true; wMode := 493; wData := [] |}
          :: rest).
Proof.
  apply (directory_archive_starts_with_its_root backslash (Archive.u "in") 493
           [(Archive.u "a", File 420 [])]).
  right; reflexivity.
Defined.

End OperatorExtra.

(* ===================================================================== *)
(** * The guard of the zip path, on a Unix host *)
(* ===================================================================== *)

Module GuardExtra.
Import Str FilePath Models World Archive Samples.
Import PathFacts MFacts.

Local Abbreviation S := (IsPathSeparator slash).

Lemma split_pieces (f : ascii -> bool) (s : chars) :
  Forall (fun piece => forall c, In c piece -> f c = false) (split f s).
Proof.
  induction s as [|c s IH]; simpl.
  - constructor; [intros c [] | constructor].
  - destruct (f c) eqn:Hc.
    + constructor; [intros x [] | exact IH].
    + destruct (split f s) as [|h t].
      * constructor; [|constructor].
        intros x [<- | []]; exact Hc.
      * inversion IH as [|? ? Hh Ht]; subst.
        constructor; [|exact Ht].
        intros x [<- | Hx]; [exact Hc | apply Hh; exact Hx].
Qed.

Lemma elements_isElement (s : chars) :
  Forall (isElement slash) (elements S s).
Proof.
  unfold elements.
  pose proof (split_pieces S s) as H.
  induction H as [|piece l Hp Hl IH]; simpl; [constructor|].
  destruct piece as [|c r]; simpl; [exact IH|].
  constructor; [|exact IH].
  split; [discriminate | exact Hp].
Qed.

Lemma dotdot_isElement : isElement slash dotdot.
Proof.
  split; [discriminate|].
  intros c [<- | [<- | []]]; reflexivity.
Qed.

Lemma cleanStep_isElement rooted stack e :
  Forall (isElement slash) stack -> isElement slash e ->
  Forall (isElement slash) (cleanStep rooted stack e).
Proof.
  intros Hs He. unfold cleanStep.
  destruct (Str.eqb e [dot]); [exact Hs|].
  destruct (Str.eqb e dotdot).
  - destruct stack as [|top below].
    + destruct rooted; [constructor|].
      constructor; [apply dotdot_isElement | constructor].
    + destruct (Str.eqb top dotdot).
      * constructor; [apply dotdot_isElement | exact Hs].
      * inversion Hs; assumption.
  - constructor; assumption.
Qed.

Lemma fold_isElement rooted es : forall stack,
  Forall (isElement slash) stack -> Forall (isElement slash) es ->
  Forall (isElement slash) (fold_left (cleanStep rooted) es stack).
Proof.
  induction es as [|e es IH]; intros stack Hs He; simpl; [exact Hs|].
  inversion He; subst.
  apply IH; [apply cleanStep_isElement; assumption | assumption].
Qed.

Lemma cleanElems_isElement path :
  Forall (isElement slash) (cleanElems slash path).
Proof.
  unfold cleanElems. apply Forall_rev.
  apply fold_isElement; [constructor | apply elements_isElement].
Qed.

(** A joined list of elements is empty or starts with a character that
    is no separator. *)
Lemma Join_head (l : list chars) :
  Forall (isElement slash) l ->
  Str.Join l [slash] = []
  \/ exists c r, Str.Join l [slash] = c :: r /\ S c = false.
Proof.
  intros H. destruct H as [|e l [Hne Hc] Hl]; [left; reflexivity|].
  right. destruct e as [|c r]; [contradiction|].
  exists c. destruct l as [|e' l'].
  - exists r; split; [reflexivity | apply Hc; left; reflexivity].
  - eexists; split; [reflexivity | apply Hc; left; reflexivity].
Qed.

(** No cleaned path starts with two separators. *)
Lemma Clean_no_double_slash path :
  HasPrefix (Clean slash path) [slash; slash] = false.
Proof.
  unfold Clean.
  destruct (Join_head _ (cleanElems_isElement path)) as [-> | (c & r & -> & Hc)].
  - destruct (isRooted slash path); reflexivity.
  - destruct (isRooted slash path); simpl.
    + destruct (Ascii.eqb c slash) eqn:E; [|reflexivity].
      apply Ascii.eqb_eq in E; subst c; discriminate Hc.
    + destruct (Ascii.eqb c slash) eqn:E; [|reflexivity].
      apply Ascii.eqb_eq in E; subst c; discriminate Hc.
Qed.

Lemma Join_cleaned (l : list chars) :
  FilePath.Join slash l = [] \/ exists x, FilePath.Join slash l = Clean slash x.
Proof.
  induction l as [|e l IH]; [left; reflexivity|].
  simpl. destruct (isEmpty e); [exact IH|].
  right; eexists; reflexivity.
Qed.

Lemma Abs_no_double_slash wd path d :
  Abs slash wd path = Some d -> HasPrefix d [slash; slash] = false.
Proof.
  unfold Abs. destruct (IsAbs slash path).
  - intros H; injection H as <-; apply Clean_no_double_slash.
  - destruct wd as [w|]; [|discriminate].
    destruct (Join_cleaned [w; path]) as [J | [x J]]; rewrite J;
      intros H; injection H as <-;
      [reflexivity | apply Clean_no_double_slash].
Qed.

(** X16.  On a Unix host, when the output directory is the root directory
    "/" (its absolute path is "/"), [extractZipFile] refuses every entry
    whose destination is not "/" itself with "illegal file path", and asks
    nothing of the file system: the guard looks for the prefix "//", which
    no cleaned path has. *)
Theorem zip_extraction_into_root_directory_is_refused :
  forall wd fsys f outputPath opts tr d,
    Abs slash wd outputPath = Some [slash] ->
    Abs slash wd (FilePath.Join slash [outputPath; zName f]) = Some d ->
    d <> [slash] ->
    extractZipFile slash wd fsys f outputPath opts tr
    = (tr, Err (Archive.u "illegal file path: " ++ zName f)).
Proof.
  intros wd fsys f outputPath opts tr d Hout Hdest Hd.
  unfold extractZipFile. cbv zeta. rewrite Hdest, Hout.
  unfold zipGuard.
  change ([slash] ++ [slash]) with [slash; slash].
  rewrite (Abs_no_double_slash _ _ _ Hdest).
  destruct (Str.eqb d [slash]) eqn:E.
  - apply eqb_eq in E; contradiction.
  - reflexivity.
Qed.

Lemma zip_extraction_into_root_directory_is_refused_witness :
  extractZipFile slash home okFs (zipEntry "a.txt" (text "hi"))
                 (Archive.u "/") quiet []
  = ([], Err (Archive.u "illegal file path: " ++ zName (zipEntry "a.txt" (text "hi")))).
Proof.
  apply (zip_extraction_into_root_directory_is_refused home okFs
           (zipEntry "a.txt" (text "hi")) (Archive.u "/") quiet []
           (Archive.u "/a.txt")).
  - reflexivity.
  - reflexivity.
  - discriminate.
Defined.

Local Abbreviation plain := (fun e : chars => e <> [dot] /\ e <> dotdot).

Lemma cleanStep_plain rooted stack e :
  e <> [dot] -> e <> dotdot -> cleanStep rooted stack e = e :: stack.
Proof.
  intros H1 H2. unfold cleanStep.
  destruct (Str.eqb e [dot]) eqn:E1; [apply eqb_eq in E1; contradiction|].
  destruct (Str.eqb e dotdot) eqn:E2; [apply eqb_eq in E2; contradiction|].
  reflexivity.
Qed.

Lemma fold_plain rooted es : forall stack,
  Forall plain es ->
  fold_left (cleanStep rooted) es stack = rev es ++ stack.
Proof.
  induction es as [|e es IH]; intros stack H; simpl; [reflexivity|].
  inversion H as [|? ? [H1 H2] Hr]; subst.
  rewrite cleanStep_plain by assumption.
  rewrite IH by assumption. rewrite <- app_assoc; reflexivity.
Qed.

(** In a rooted path the element loop of [Clean] keeps neither "." nor
    "..". *)
Lemma cleanStep_rooted_plain stack e :
  Forall plain stack -> Forall plain (cleanStep true stack e).
Proof.
  unfold cleanStep. intros Hs.
  destruct (Str.eqb e [dot]) eqn:E1; [exact Hs|].
  destruct (Str.eqb e dotdot) eqn:E2.
  - destruct stack as [|top below]; [constructor|].
    destruct (Str.eqb top dotdot) eqn:E3.
    + apply eqb_eq in E3. inversion Hs as [|? ? [_ Ht] _]; contradiction.
    + inversion Hs; assumption.
  - constructor; [|exact Hs].
    split; intros He; apply eqb_eq in He; congruence.
Qed.

Lemma fold_rooted_plain es : forall stack,
  Forall plain stack -> Forall plain (fold_left (cleanStep true) es stack).
Proof.
  induction es as [|e es IH]; intros stack Hs; simpl; [exact Hs|].
  apply IH, cleanStep_rooted_plain, Hs.
Qed.

Lemma split_element (f : ascii -> bool) (e : chars) :
  (forall c, In c e -> f c = false) -> split f e = [e].
Proof.
  induction e as [|c e IH]; intros H; simpl; [reflexivity|].
  rewrite (H c) by (left; reflexivity).
  rewrite IH by (intros x Hx; apply H; right; exact Hx).
  reflexivity.
Qed.

Lemma elements_element e : isElement slash e -> elements S e = [e].
Proof.
  intros [Hne Hc]. unfold elements. rewrite split_element by exact Hc.
  destruct e; [contradiction | reflexivity].
Qed.

Lemma elements_after_slash x : elements S (slash :: x) = elements S x.
Proof. apply (elements_app_sep S [] x slash); reflexivity. Qed.

(** Joining path elements and cutting the result again gives the
    elements back. *)
Lemma elements_Join l :
  Forall (isElement slash) l -> elements S (Str.Join l [slash]) = l.
Proof.
  induction 1 as [|e l He Hl IH]; [reflexivity|].
  destruct l as [|e' l'].
  - apply elements_element; exact He.
  - change (Str.Join (e :: e' :: l') [slash])
      with (e ++ slash :: Str.Join (e' :: l') [slash]).
    rewrite elements_app_sep by reflexivity.
    rewrite IH, elements_element by assumption. reflexivity.
Qed.

Lemma StrJoin_app (a b : list chars) (s : chars) :
  a <> [] -> b <> [] ->
  Str.Join (a ++ b) s = Str.Join a s ++ s ++ Str.Join b s.
Proof.
  induction a as [|x a IH]; intros Ha Hb; [contradiction|].
  destruct a as [|y a].
  - destruct b; [contradiction | reflexivity].
  - change (Str.Join ((x :: y :: a) ++ b) s)
      with (x ++ s ++ Str.Join ((y :: a) ++ b) s).
    rewrite IH by (discriminate || assumption).
    change (Str.Join (x :: y :: a) s) with (x ++ s ++ Str.Join (y :: a) s).
    rewrite <- !app_assoc; reflexivity.
Qed.

Lemma Clean_rooted path :
  isRooted slash path = true ->
  Clean slash path = slash :: Str.Join (cleanElems slash path) [slash].
Proof. intros H; unfold Clean; rewrite H; reflexivity. Qed.

(** A path made of a separator and kept elements is its own cleaned
    form. *)
Lemma Clean_fixed (l : list chars) :
  Forall (isElement slash) l -> Forall plain l ->
  Clean slash (slash :: Str.Join l [slash]) = slash :: Str.Join l [slash].
Proof.
  intros He Hp. rewrite Clean_rooted by reflexivity.
  unfold cleanElems. rewrite elements_after_slash, elements_Join by exact He.
  rewrite fold_plain by exact Hp.
  rewrite app_nil_r, rev_involutive; reflexivity.
Qed.

(** [Join] of an absolute directory other than "/" and a name without "."
    and ".." elements: the cleaned directory, a separator, the elements of
    the name. *)
Lemma Join_below_root outputPath name :
  IsAbs slash outputPath = true ->
  Clean slash outputPath <> [slash] ->
  elements S name <> [] ->
  Forall plain (elements S name) ->
  FilePath.Join slash [outputPath; name]
  = Clean slash outputPath ++ [slash] ++ Str.Join (elements S name) [slash]
  /\ Clean slash (FilePath.Join slash [outputPath; name])
     = FilePath.Join slash [outputPath; name]
  /\ IsAbs slash (FilePath.Join slash [outputPath; name]) = true.
Proof.
  intros Habs Hroot Hne Hp. unfold IsAbs in *.
  assert (Hout : Forall plain (cleanElems slash outputPath)).
  { unfold cleanElems. rewrite Habs.
    apply Forall_rev, fold_rooted_plain; constructor. }
  assert (HoutE : cleanElems slash outputPath <> []).
  { intros E. apply Hroot. rewrite Clean_rooted, E by exact Habs. reflexivity. }
  assert (Hj : FilePath.Join slash [outputPath; name]
               = slash :: Str.Join (cleanElems slash outputPath
                                    ++ elements S name) [slash]).
  { destruct outputPath as [|c r]; [discriminate Habs|].
    change (FilePath.Join slash [c :: r; name])
      with (Clean slash ((c :: r) ++ slash :: name)).
    rewrite Clean_rooted by exact Habs. f_equal. f_equal.
    unfold cleanElems.
    change (isRooted slash ((c :: r) ++ slash :: name))
      with (isRooted slash (c :: r)).
    rewrite elements_app_sep by reflexivity.
    rewrite fold_left_app, fold_plain by exact Hp.
    rewrite rev_app_distr, rev_involutive. reflexivity. }
  rewrite Hj. split; [|split].
  - rewrite StrJoin_app by assumption.
    rewrite Clean_rooted by exact Habs. reflexivity.
  - apply Clean_fixed.
    + apply Forall_app; split;
        [apply cleanElems_isElement | apply elements_isElement].
    + apply Forall_app; split; assumption.
  - reflexivity.
Qed.

(** X17.  On a Unix host, with an absolute output directory other than
    "/" and a file system on which every call succeeds, [extractZipFile]
    accepts a file entry whose name has at least one element and no "."
    or ".." element, and writes its bytes at the cleaned output directory
    followed by the elements of the name: it creates the parent directory
    with mode 0755, opens the file with the mode of the entry, writes the
    data, and returns no error. *)
Theorem plain_file_entry_is_written_below_root :
  forall wd fsys f outputPath opts tr dest,
    IsAbs slash outputPath = true ->
    Clean slash outputPath <> [slash] ->
    elements S (zName f) <> [] ->
    Forall (fun e => e <> [dot] /\ e <> dotdot) (elements S (zName f)) ->
    zIsDir f = false -> zOpenErr f = None -> zReadErr f = None ->
    (forall t op, fsys t op = None) ->
    dest = Clean slash outputPath ++ [slash]
           ++ Str.Join (elements S (zName f)) [slash] ->
    extractZipFile slash wd fsys f outputPath opts tr
    = (tr ++ (if Verbose opts
              then [Stdout (Archive.u "  Extracting: " ++ zName f)] else [])
          ++ [Fs (MkdirAll (Dir slash dest) 493);
              Fs (OpenFile dest (zMode f));
              Fs (WriteTo dest (zData f))],
       Ok tt).
Proof.
  intros wd fsys f outputPath opts tr dest Habs Hroot Hne Hp
         Hdir Hopen Hread Hfs Hdest.
  destruct (Join_below_root outputPath (zName f) Habs Hroot Hne Hp)
    as (Hj & Hc & Ha).
  rewrite <- Hj in Hdest.
  unfold extractZipFile. cbv zeta.
  rewrite <- Hdest in Hc, Ha |- *.
  unfold Abs. rewrite Ha, Habs, Hc.
  assert (Hg : zipGuard slash dest (Clean slash outputPath) = true).
  { unfold zipGuard. apply orb_true_iff; left.
    apply HasPrefix_spec. rewrite Hdest, Hj.
    exists (Str.Join (elements S (zName f)) [slash]).
    rewrite <- app_assoc; reflexivity. }
  rewrite Hg, Hdir, Hopen, Hread. cbn [negb].
  unfold bind, when, call, emit, orFail, ret.
  destruct (Verbose opts); rewrite !Hfs; cbn [app];
    rewrite <- ?app_assoc; reflexivity.
Qed.

Lemma plain_file_entry_is_written_below_root_witness :
  extractZipFile slash home okFs (zipEntry "docs/a.txt" (text "hi"))
                 (Archive.u "/tmp/out/") quiet []
  = ([] ++ (if Verbose quiet
            then [Stdout (Archive.u "  Extracting: "
                          ++ zName (zipEntry "docs/a.txt" (text "hi")))]
            else [])
        ++ [Fs (MkdirAll (Dir slash (Archive.u "/tmp/out/docs/a.txt")) 493);
            Fs (OpenFile (Archive.u "/tmp/out/docs/a.txt")
                         (zMode (zipEntry "docs/a.txt" (text "hi"))));
            Fs (WriteTo (Archive.u "/tmp/out/docs/a.txt")
                        (zData (zipEntry "docs/a.txt" (text "hi"))))],
     Ok tt).
Proof.
  apply (plain_file_entry_is_written_below_root home okFs
           (zipEntry "docs/a.txt" (text "hi")) (Archive.u "/tmp/out/") quiet []
           (Archive.u "/tmp/out/docs/a.txt")).
  - reflexivity.
  - discriminate.
  - discriminate.
  - repeat (apply Forall_cons || apply Forall_nil); split; discriminate.
  - reflexivity.
  - reflexivity.
  - reflexivity.
  - reflexivity.
  - reflexivity.
Defined.

End GuardExtra.

(* ===================================================================== *)
(** * Archives of directory trees, on a Unix host *)
(* ===================================================================== *)

Module TreeFacts.
Import Str FilePath Models World Archive Codec Expected Samples.
Import PathFacts MFacts GuardExtra.

Local Abbreviation S := (IsPathSeparator slash).
Local Abbreviation plain := (fun e : chars => e <> [dot] /\ e <> dotdot).

























Section Walk.
Variable input : chars.
Variable visit : chars * FileTree -> Result Written.
Variable entryOf : list chars * FileTree -> Written.
Hypothesis visit_below : forall names path t,
  below input names path -> visit (path, t) = Ok (entryOf (names, t)).


End Walk.

















End TreeFacts.

(* ===================================================================== *)
(** * From the flags to the command *)
(* ===================================================================== *)

Module MainFacts.
Import Str Models World Naming Cli Main Samples.
Import PathFacts.

Lemma not_empty (a : chars) : a <> [] -> isEmpty a = false.
Proof. destruct a; [contradiction | reflexivity]. Qed.

(** X18.  What [main] runs for the Unix-style flags, without [-help] and
    [-version], when the first positional argument [a] is not empty.
    With [a] alone: [-c] ends in the usage text and exit status 1 -- the
    argument is taken as the archive to write and no input is left --,
    [-x] without [-c] extracts [a] into ".", [-t] without both lists [a].
    With a second argument [b], not empty: [-c] compresses [b] into [a],
    [-x] extracts [a] into [b], [-t] lists [a]. *)
Theorem unix_style_command :
  forall fv a,
    fvHelp fv || fvH fv = false -> fvVersion fv = false ->
    fvC fv || fvX fv || fvT fv = true ->
    a <> [] ->
    let opts := buildOptions (buildArgs fv) in
    (fvArgs fv = [a] ->
     main (Ok (buildArgs fv))
     = if fvC fv then Usage 1
       else if fvX fv then RunExtract opts a (Cli.u ".")
       else RunList opts a)
    /\ (forall b rest,
          b <> [] -> fvArgs fv = a :: b :: rest ->
          main (Ok (buildArgs fv))
          = if fvC fv then RunCompress opts b a
            else if fvX fv then RunExtract opts a b
            else RunList opts a).
Proof.
  intros fv a Hh Hv Hflag Ha opts. subst opts.
  apply not_empty in Ha.
  split.
  - intros Hargs. unfold main, buildArgs, positional.
    rewrite Hh, Hv, Hargs.
    destruct (fvC fv); [reflexivity|].
    destruct (fvX fv); cbn; [rewrite Ha; reflexivity|].
    destruct (fvT fv); [|discriminate Hflag].
    cbn; rewrite Ha; reflexivity.
  - intros b rest Hb Hargs. apply not_empty in Hb.
    unfold main, buildArgs, positional.
    rewrite Hh, Hv, Hargs.
    destruct (fvC fv); cbn; [rewrite Hb, Ha; reflexivity|].
    destruct (fvX fv); cbn; [rewrite Ha, Hb; reflexivity|].
    destruct (fvT fv); [|discriminate Hflag].
    cbn; rewrite Ha; reflexivity.
Qed.

Lemma unix_style_command_witness :
  (fvArgs cvfFlags = [Cli.u "archive.zip"] ->
   main (Ok (buildArgs cvfFlags))
   = if fvC cvfFlags then Usage 1
     else if fvX cvfFlags
          then RunExtract (buildOptions (buildArgs cvfFlags))
                          (Cli.u "archive.zip") (Cli.u ".")
          else RunList (buildOptions (buildArgs cvfFlags)) (Cli.u "archive.zip"))
  /\ (forall b rest,
        b <> [] -> fvArgs cvfFlags = Cli.u "archive.zip" :: b :: rest ->
        main (Ok (buildArgs cvfFlags))
        = if fvC cvfFlags
          then RunCompress (buildOptions (buildArgs cvfFlags)) b
                           (Cli.u "archive.zip")
          else if fvX cvfFlags
               then RunExtract (buildOptions (buildArgs cvfFlags))
                               (Cli.u "archive.zip") b
               else RunList (buildOptions (buildArgs cvfFlags))
                            (Cli.u "archive.zip")).
Proof.
  apply (unix_style_command cvfFlags (Cli.u "archive.zip")).
  - reflexivity.
  - reflexivity.
  - reflexivity.
  - discriminate.
Defined.

End MainFacts.

(* ===================================================================== *)
(** * The worker pool over the archive of a directory tree *)
(* ===================================================================== *)

Module TreePool.
Import Str FilePath Models World Archive Pool Codec Expected Samples.
Import PathFacts MFacts PoolFacts GuardExtra TreeFacts.





End TreePool.
